(** * textnoisr: character-level noise whose CER converges to a target level

    A shallow embedding of [textnoisr/noise_unbiasing.py] and
    [textnoisr/noise.py].

    - Python floats are IEEE 754 binary64 values: Rocq's primitive floats,
      whose operations round to nearest-even exactly as CPython's do.
    - A Python [str] is a [list ascii]; a one-character string is a
      one-element list and the empty string is [[]].
    - A method that draws from [self.random] is a function from the generator
      state to an outcome and the next state; an exception leaves the state
      as it was when it was raised.
    - What the repository calls but does not define (the C library's [pow],
      scipy's [fsolve], the generator behind [random.Random]) is an interface
      the definitions are parameterised by.
    - The two caches of [noise_unbiasing.py] are state of the process,
      shared by all augmenters: the decorated functions and [add_noise] run
      against them take the caches and return them. *)

From Stdlib Require Import ZArith Lia Uint63 PrimFloat FloatOps SpecFloat.
From Stdlib Require Import FloatAxioms.
From Stdlib Require Import Ascii String.
From stdpp Require Import list strings gmap.

Set Warnings "-inexact-float".

(** ** Outcomes of a Python call *)

Inductive exn : Set :=
  | ValueError
  | ZeroDivisionError
  | IndexError
  | TypeError
  | OverflowError.

(** [OutOfFuel] is the model's reading of a [while] loop that has not left
    after the given number of iterations. *)
Inductive res (A : Type) : Type :=
  | Ok (a : A)
  | Raise (e : exn)
  | OutOfFuel.
Arguments Ok {A} a.
Arguments Raise {A} e.
Arguments OutOfFuel {A}.

Definition res_bind {A B} (r : res A) (k : A -> res B) : res B :=
  match r with
  | Ok a => k a
  | Raise e => Raise e
  | OutOfFuel => OutOfFuel
  end.

Declare Scope py_scope.
Delimit Scope py_scope with py.
Notation "'let?' x := r 'in' k" := (res_bind r (fun x => k))
  (at level 10, x name, r at level 100, k at level 200, only parsing) : py_scope.
Local Open Scope py_scope.

(** ** Python numbers *)

(** [int -> float], as in [n_spaces / n_chars] and [1 / n_actions]: exact
    below 2^53, which every length CPython can reach in practice is. *)
Definition float_of_Z (z : Z) : float :=
  match z with
  | Z0 => 0%float
  | Zpos _ => of_uint63 (Uint63.of_Z z)
  | Zneg q => (- of_uint63 (Uint63.of_Z (Zpos q)))%float
  end.

Definition float_of_nat (n : nat) : float := float_of_Z (Z.of_nat n).

(** [iw == floor(iw)] of CPython's [float_pow], read off the binary
    representation; an infinity counts as integral and a NaN does not. *)
Definition float_is_integral (f : float) : bool :=
  match Prim2SF f with
  | S754_zero _ => true
  | S754_infinity _ => true
  | S754_nan => false
  | S754_finite _ m e =>
      (0 <=? e)%Z || (Z.pos m mod 2 ^ (- e) =? 0)%Z
  end.

Definition float_is_finite (f : float) : bool :=
  match Prim2SF f with
  | S754_zero _ | S754_finite _ _ _ => true
  | S754_infinity _ | S754_nan => false
  end.

Definition float_is_infinite (f : float) : bool :=
  match Prim2SF f with
  | S754_infinity _ => true
  | _ => false
  end.

(** The result of float arithmetic in Python is a float or, once a negative
    number has been raised to a fractional power, a complex number. The code
    never reads a complex value: it only compares it, which raises. *)
Inductive pynum : Set :=
  | PyFloat (f : float)
  | PyComplex.

(** [u < p] with [u] a float. *)
Definition py_lt (u : float) (p : pynum) : res bool :=
  match p with
  | PyFloat f => Ok (u <? f)%float
  | PyComplex => Raise TypeError
  end.

(** [1.0 - x] *)
Definition py_one_minus (x : pynum) : pynum :=
  match x with
  | PyFloat f => PyFloat (1 - f)%float
  | PyComplex => PyComplex
  end.

(** [min(p, bound)] with [bound] a float: Python keeps the first argument
    unless the second is smaller. *)
Definition py_min (p : pynum) (bound : float) : res float :=
  match p with
  | PyFloat f => Ok (if (bound <? f)%float then bound else f)
  | PyComplex => Raise TypeError
  end.

(** [math.sqrt] *)
Definition math_sqrt (x : float) : res float :=
  if (x <? 0)%float then Raise ValueError else Ok (sqrt x).

(** What the unbiasing functions call outside the repository.
    - [libm_pow x y] is the float CPython computes for [x ** y] whenever that
      result is real (the C library's [pow] behind [float_pow]).
    - [fsolve_root cer N] is
      [float(scipy.optimize.fsolve(lambda x: E(float(x[0]), N) - cer, [0])[0])]
      with [E] the expected CER of the swap Markov chain
      ([__compute_noise_level_from_expected_cer]). *)
Class NumericRuntime : Type := {
  libm_pow : float -> float -> float;
  fsolve_root : float -> nat -> float
}.

(** ** noise_unbiasing.py *)
Module NoiseUnbiasing.
Section WithRuntime.
Context {NR : NumericRuntime}.

(** [sys.float_info.epsilon] *)
Definition float_epsilon : float := Z.ldexp 1 (-52).

Definition MAX_SWAP_LEVEL : float := (4 - 2 * sqrt 3 - float_epsilon)%float.

(** [x ** y] on floats. A finite negative base with a finite fractional
    exponent gives a complex number; zero to a finite negative power and an
    overflowing result raise; every other case is the real power. *)
Definition py_pow (x y : float) : res pynum :=
  if (x <? 0)%float && float_is_finite x && float_is_finite y
     && negb (float_is_integral y)
  then Ok PyComplex
  else if (x =? 0)%float && float_is_finite y && (y <? 0)%float
  then Raise ZeroDivisionError
  else
    let r := libm_pow x y in
    if float_is_finite x && float_is_finite y && float_is_infinite r
    then Raise OverflowError
    else Ok (PyFloat r).

(** [__compute_noise_level_from_expected_cer], the function under
    [functools.cache]. *)
Definition __compute_noise_level_from_expected_cer (cer : float) (N : nat)
  : float := fsolve_root cer N.

(** [unbias_swap], the function under [functools.lru_cache]. *)
Definition unbias_swap (p : pynum) (N : nat) : res float :=
  let? p := py_min p MAX_SWAP_LEVEL in
  if (N =? 0)%nat then Ok p
  else if (p =? 0)%float then Ok 0%float
  else if (50 <? N)%nat then
    let a := ((2 - p) / 2)%float in
    let? sq := py_pow p 2 in
    match sq with
    | PyComplex => Raise TypeError
    | PyFloat p2 =>
        let? r := math_sqrt (p2 - 8 * p + 4)%float in
        Ok (a - r / 2)%float
    end
  else Ok (__compute_noise_level_from_expected_cer p N).

Definition unbias_split_into_words (p : float) (text : list (list ascii))
  : res float :=
  let n_chars : nat := sum_list (length <$> text) in
  let n_spaces : Z := (Z.of_nat (length text) - 1)%Z in
  if (n_chars =? 0)%nat then Raise ZeroDivisionError
  else Ok (p * (1 + float_of_Z n_spaces / float_of_nat n_chars))%float.

Definition unbias_several_action (p : float) (n_actions : nat) : res pynum :=
  let base := (1 - p)%float in
  if (n_actions =? 0)%nat then Raise ZeroDivisionError
  else
    let? r := py_pow base (1 / float_of_nat n_actions)%float in
    Ok (py_one_minus r).

End WithRuntime.
End NoiseUnbiasing.

(** ** The generator behind [random.Random]

    [rng_seed n] is the state of [random.Random(n)]; [rng_random] is
    [random()], a float of [[0, 1)]; [rng_randbelow n] is the index
    [choice] draws for a sequence of length [n]. Each returns the state the
    generator is left in. *)
Class RandomSource : Type := {
  rng : Type;
  rng_seed : Z -> rng;
  rng_random : rng -> float * rng;
  rng_randbelow : nat -> rng -> nat * rng
}.

(** ** noise.py *)
Module Noise.
Import NoiseUnbiasing.
Section WithRuntime.
Context {NR : NumericRuntime} {RS : RandomSource}.

(** A computation that uses [self.random]. *)
Definition M (A : Type) : Type := rng -> res A * rng.

Definition ret {A} (a : A) : M A := fun s => (Ok a, s).

Definition bind {A B} (m : M A) (k : A -> M B) : M B :=
  fun s =>
    match m s with
    | (Ok a, s') => k a s'
    | (Raise e, s') => (Raise e, s')
    | (OutOfFuel, s') => (OutOfFuel, s')
    end.

Definition lift {A} (r : res A) : M A := fun s => (r, s).

Notation "x <- m ;; k" := (bind m (fun x => k))
  (at level 100, m at next level, right associativity, only parsing).

(** [[f(x) for x in l]], the elements taken in order. *)
Fixpoint mapM {A B} (f : A -> M B) (l : list A) : M (list B) :=
  match l with
  | [] => ret []
  | x :: t => y <- f x ;; ys <- mapM f t ;; ret (y :: ys)
  end.

(** [self.random.random()] *)
Definition random_random : M float :=
  fun s => let (u, s') := rng_random s in (Ok u, s').

(** [self.random.choice(seq)]: an empty sequence raises before any draw. *)
Definition random_choice {A} (seq : list A) : M A :=
  fun s =>
    match seq with
    | [] => (Raise IndexError, s)
    | _ :: _ =>
        let (i, s') := rng_randbelow (length seq) s in
        match seq !! i with
        | Some c => (Ok c, s')
        | None => (Raise IndexError, s')
        end
    end.

Definition _AVAILABLE_ACTIONS : list string :=
  ["insert"; "swap"; "substitute"; "delete"]%string.

Record CharNoiseAugmenter : Type := {
  actions : list string;
  character_set : list ascii;
  noise_level : float;
  random : rng
}.

(** [[x for i, x in enumerate(actions) if x not in actions[:i]]] *)
Definition dedup_actions (acts : list string) : list string :=
  snd <$> filter (fun ix : nat * string => ix.2 ∉ take ix.1 acts)
                 (imap (fun i x => (i, x)) acts).

(** [random.Random(seed)]: with [seed=None] the state comes from the
    operating system, here the argument [entropy]. *)
Definition new_random (seed : option Z) (entropy : Z) : rng :=
  match seed with
  | Some n => rng_seed n
  | None => rng_seed entropy
  end.

Definition __init__ (noise_level : float) (actions : list string)
    (character_set : list ascii) (seed : option Z) (entropy : Z)
  : res CharNoiseAugmenter :=
  let self_actions := dedup_actions actions in
  let self_character_set := character_set in
  let self_noise_level := noise_level in
  let self_random := new_random seed entropy in
  let unsupported_actions :=
    filter (fun a => a ∉ _AVAILABLE_ACTIONS) self_actions in
  if negb (bool_decide (unsupported_actions = [])) then Raise ValueError
  else if negb ((0 <=? self_noise_level)%float
                && (self_noise_level <=? 1)%float)
  then Raise ValueError
  else if (MAX_SWAP_LEVEL <? self_noise_level)%float
          && bool_decide ("swap"%string ∈ self_actions)
  then Raise ValueError
  else Ok {| actions := self_actions;
             character_set := self_character_set;
             noise_level := self_noise_level;
             random := self_random |}.

Definition _random_success (p : pynum) : M bool :=
  u <- random_random ;; lift (py_lt u p).

(** [bool * str]: the character when the draw succeeded, else the empty
    string; the character is drawn either way. *)
Definition _random_char (p : pynum) (character_set : list ascii)
  : M (list ascii) :=
  b <- _random_success p ;;
  c <- random_choice character_set ;;
  ret (if b : bool then [c] else []).

Definition insert_random_chars (character_set : list ascii)
    (text : list ascii) (p : pynum) : M (list ascii) :=
  pieces <- mapM (fun char =>
                    r <- _random_char p character_set ;; ret (char :: r))
                 text ;;
  ret (concat pieces).

(** The first draw and the [while other_char == char] loop, one draw per
    unit of [fuel]. *)
Fixpoint _choose_another_character (fuel : nat) (character_set : list ascii)
    (char : ascii) : M ascii :=
  match fuel with
  | O => lift OutOfFuel
  | S fuel' =>
      other_char <- random_choice character_set ;;
      if bool_decide (other_char = char)
      then _choose_another_character fuel' character_set char
      else ret other_char
  end.

Definition substitute_random_chars (fuel : nat) (character_set : list ascii)
    (text : list ascii) (p : pynum) : M (list ascii) :=
  pieces <- mapM (fun char =>
                    b <- _random_success p ;;
                    if b : bool
                    then c <- _choose_another_character fuel character_set char ;;
                         ret [c]
                    else ret [char])
                 text ;;
  ret (concat pieces).

Definition delete_random_chars (text : list ascii) (p : pynum)
  : M (list ascii) :=
  pieces <- mapM (fun char =>
                    b <- _random_success p ;;
                    ret (if b : bool then [] else [char]))
                 text ;;
  ret (concat pieces).

(** [itertools.zip_longest(l1, l2, fillvalue=fill)] *)
Fixpoint zip_longest {A} (fill : A) (l1 l2 : list A) : list (A * A) :=
  match l1 with
  | [] => (fun y => (fill, y)) <$> l2
  | x :: t1 =>
      match l2 with
      | [] => (x, fill) :: zip_longest fill t1 []
      | y :: t2 => (x, y) :: zip_longest fill t1 t2
      end
  end.

(** A string as the sequence of its one-character strings. *)
Definition chars (text : list ascii) : list (list ascii) :=
  (fun c => [c]) <$> text.

(** The body of the [for current_char, next_char in ...] loop, with the two
    variables it updates: [result] and [was_swapped]. *)
Fixpoint swap_loop (p : pynum) (pairs : list (list ascii * list ascii))
    (result : list (list ascii)) (was_swapped : bool) : M (list (list ascii)) :=
  match pairs with
  | [] => ret result
  | (current_char, next_char) :: rest =>
      if was_swapped then swap_loop p rest result false
      else
        b <- _random_success p ;;
        if b : bool
        then swap_loop p rest (result ++ [next_char; current_char]) true
        else swap_loop p rest (result ++ [current_char]) false
  end.

Definition consecutive_swap_random_chars (text : list ascii) (p : pynum)
  : M (list ascii) :=
  p <- lift (unbias_swap p (length text)) ;;
  result <- swap_loop (PyFloat p)
              (zip_longest [] (chars text) (chars (drop 1 text))) [] false ;;
  ret (concat result).

(** The argument of [add_noise]: a string or a list of strings. *)
Inductive text : Type :=
  | Str (s : list ascii)
  | Tokens (ws : list (list ascii)).

(** The [match action] of [add_noise]. *)
Definition action_function (fuel : nat) (self : CharNoiseAugmenter)
    (action : string) : res (list ascii -> pynum -> M (list ascii)) :=
  if String.eqb action "insert" then
    Ok (insert_random_chars self.(character_set))
  else if String.eqb action "swap" then
    Ok consecutive_swap_random_chars
  else if String.eqb action "substitute" then
    Ok (substitute_random_chars fuel self.(character_set))
  else if String.eqb action "delete" then
    Ok delete_random_chars
  else Raise ValueError.

(** The [for action in self.actions] loop. *)
Fixpoint run_actions (fuel : nat) (self : CharNoiseAugmenter)
    (todo : list string) (p_effective : pynum) (t : text) : M text :=
  match todo with
  | [] => ret t
  | action :: rest =>
      f <- lift (action_function fuel self action) ;;
      t' <- match t with
            | Tokens ws =>
                ws' <- mapM (fun word => f word p_effective) ws ;;
                ret (Tokens ws')
            | Str s => s' <- f s p_effective ;; ret (Str s')
            end ;;
      run_actions fuel self rest p_effective t'
  end.

Definition add_noise_body (fuel : nat) (self : CharNoiseAugmenter) (t : text)
  : M text :=
  p <- lift (match t with
             | Tokens ws => unbias_split_into_words self.(noise_level) ws
             | Str _ => Ok self.(noise_level)
             end) ;;
  p_effective <- lift (unbias_several_action p (length self.(actions))) ;;
  run_actions fuel self self.(actions) p_effective t.

(** [self.add_noise(text)]: the outcome, and [self] with its generator
    advanced. *)
Definition add_noise (fuel : nat) (self : CharNoiseAugmenter) (t : text)
  : res text * CharNoiseAugmenter :=
  let (r, s') := add_noise_body fuel self t self.(random) in
  (r, {| actions := self.(actions);
         character_set := self.(character_set);
         noise_level := self.(noise_level);
         random := s' |}).

(** A sequence of [add_noise] calls on one augmenter, each outcome kept. *)
Fixpoint add_noise_calls (fuel : nat) (self : CharNoiseAugmenter)
    (inputs : list text) : list (res text) * CharNoiseAugmenter :=
  match inputs with
  | [] => ([], self)
  | t :: rest =>
      let (r, self') := add_noise fuel self t in
      let (rs, self'') := add_noise_calls fuel self' rest in
      (r :: rs, self'')
  end.

End WithRuntime.
End Noise.

(** ** noise_dataset.py *)
Module NoiseDataset.
Import Noise.
Section WithRuntime.
Context {NR : NumericRuntime} {RS : RandomSource}.

(** How a call on one example ends: the example is returned, the column is
    missing, [add_noise] raised, or [add_noise] did not leave its loop. *)
Inductive example_res : Type :=
  | Returned (example : gmap string text)
  | KeyError
  | Failed (e : exn)
  | Unfinished.

(** An example is a dict from column names to values; the columns here hold
    what [add_noise] accepts, a string or a list of strings. The right-hand
    side is evaluated before the assignment, so nothing is stored when the
    lookup or [add_noise] fails. *)
Definition _add_noise_to_example (fuel : nat) (example : gmap string text)
    (noise_augmenter : CharNoiseAugmenter) (feature_name : string)
  : example_res * CharNoiseAugmenter :=
  match example !! feature_name with
  | None => (KeyError, noise_augmenter)
  | Some value =>
      match add_noise fuel noise_augmenter value with
      | (Ok noised, augmenter') =>
          (Returned (<[feature_name := noised]> example), augmenter')
      | (Raise e, augmenter') => (Failed e, augmenter')
      | (OutOfFuel, augmenter') => (Unfinished, augmenter')
      end
  end.

End WithRuntime.
End NoiseDataset.

(** ** scripts/generate_figures.py: the guard of the benchmark *)
Module GenerateFigures.
Import NoiseUnbiasing Noise.
Section WithRuntime.
Context {RS : RandomSource}.

(** [string.ascii_letters], the default [character_set]. *)
Definition ascii_letters : list ascii :=
  list_ascii_of_string
    "abcdefghijklmnopqrstuvwxyzABCDEFGHIJKLMNOPQRSTUVWXYZ".

Definition max_level (actions : list string) : float :=
  if bool_decide ("swap"%string ∈ actions)
  then (MAX_SWAP_LEVEL / 1.052 - 0.005)%float
  else 1%float.

(** [get_cer_from_textnoisr] up to the construction of its augmenter:
    [None] when the noise level is above [max_level(actions)], else the
    outcome of [CharNoiseAugmenter(noise_level, actions, seed=43)]. *)
Definition get_cer_from_textnoisr_augmenter (noise_level : float)
    (actions : list string) (entropy : Z) : option (res CharNoiseAugmenter) :=
  if (max_level actions <? noise_level)%float then None
  else Some (__init__ noise_level actions ascii_letters (Some 43%Z) entropy).

End WithRuntime.
End GenerateFigures.

(** ** The caches of noise_unbiasing.py

    [unbias_swap] is decorated with [functools.lru_cache] and
    [__compute_noise_level_from_expected_cer] with [functools.cache]. For the
    life of the process each keeps the results of its earlier calls in a dict
    keyed by the arguments, shared by every augmenter. A dict compares keys
    with [==], so a call finds the result stored for other arguments that are
    equal to its own: [0.0] and [-0.0] share an entry. A call that raises
    stores nothing.

    [NoiseUnbiasing.unbias_swap] and
    [NoiseUnbiasing.__compute_noise_level_from_expected_cer] are the
    functions under the decorators. Here are the decorated functions, and
    [add_noise] run against them, the caches being one more piece of state. *)
Module Cached.
Import NoiseUnbiasing Noise.
Section WithRuntime.
Context {NR : NumericRuntime} {RS : RandomSource}.

(** The arguments of a call, and its result. *)
Definition entry : Type := (float * nat) * float.

(** The looked-up key against a stored one. A NaN is equal to no float; the
    dict finds it again only as the very same object, and then returns what
    the call would compute. *)
Definition key_eqb (k stored : float * nat) : bool :=
  (k.1 =? stored.1)%float && (k.2 =? stored.2)%nat.

(** The entry stored for a key, and the other entries. *)
Fixpoint cache_find (k : float * nat) (c : list entry)
  : option (entry * list entry) :=
  match c with
  | [] => None
  | e :: rest =>
      if key_eqb k e.1 then Some (e, rest)
      else match cache_find k rest with
           | Some (e', rest') => Some (e', e :: rest')
           | None => None
           end
  end.

(** The two caches; the entries of [swap_cache] are kept most recently used
    first. *)
Record caches : Type := {
  swap_cache : list entry;
  solver_cache : list entry
}.

Definition no_cache : caches := {| swap_cache := []; solver_cache := [] |}.

(** The default [maxsize] of [functools.lru_cache]. *)
Definition lru_maxsize : nat := 128.

(** [@functools.cache] on [__compute_noise_level_from_expected_cer]: no
    bound on the size. *)
Definition compute_noise_level_cached (sc : list entry) (cer : float)
    (N : nat) : float * list entry :=
  match cache_find (cer, N) sc with
  | Some (e, _) => (e.2, sc)
  | None =>
      let v := __compute_noise_level_from_expected_cer cer N in
      (v, ((cer, N), v) :: sc)
  end.

(** The body of [unbias_swap], its last line calling the decorated solver. *)
Definition unbias_swap_body (sc : list entry) (p : pynum) (N : nat)
  : res float * list entry :=
  match py_min p MAX_SWAP_LEVEL with
  | Ok p =>
      if (N =? 0)%nat then (Ok p, sc)
      else if (p =? 0)%float then (Ok 0%float, sc)
      else if (50 <? N)%nat then
        (let a := ((2 - p) / 2)%float in
         let? sq := py_pow p 2 in
         match sq with
         | PyComplex => Raise TypeError
         | PyFloat p2 =>
             let? r := math_sqrt (p2 - 8 * p + 4)%float in
             Ok (a - r / 2)%float
         end, sc)
      else
        let (v, sc') := compute_noise_level_cached sc p N in (Ok v, sc')
  | Raise e => (Raise e, sc)
  | OutOfFuel => (OutOfFuel, sc)
  end.

(** [@functools.lru_cache] on [unbias_swap]. A hit returns the stored result
    without running the body and makes the entry the most recent one; a miss
    runs the body and, when it returns, stores the result, dropping the
    least recently used entry once there are more than [lru_maxsize]. A
    complex target is equal to no stored float. *)
Definition unbias_swap_cached (c : caches) (p : pynum) (N : nat)
  : res float * caches :=
  let miss (store : float -> list entry) :=
    match unbias_swap_body (solver_cache c) p N with
    | (Ok v, sc) =>
        (Ok v, {| swap_cache := take lru_maxsize (store v);
                  solver_cache := sc |})
    | (Raise e, sc) =>
        (Raise e, {| swap_cache := swap_cache c; solver_cache := sc |})
    | (OutOfFuel, sc) =>
        (OutOfFuel, {| swap_cache := swap_cache c; solver_cache := sc |})
    end in
  match p with
  | PyFloat f =>
      match cache_find (f, N) (swap_cache c) with
      | Some (e, rest) =>
          (Ok e.2, {| swap_cache := e :: rest;
                      solver_cache := solver_cache c |})
      | None => miss (fun v => ((f, N), v) :: swap_cache c)
      end
  | PyComplex => miss (fun _ => swap_cache c)
  end.

(** The caches after a sequence of calls of [unbias_swap]. *)
Fixpoint other_calls (c : caches) (calls : list (pynum * nat)) : caches :=
  match calls with
  | [] => c
  | (p, N) :: rest => other_calls (snd (unbias_swap_cached c p N)) rest
  end.

(** A computation that uses [self.random] and the caches. *)
Definition MC (A : Type) : Type := rng * caches -> res A * (rng * caches).

Definition retC {A} (a : A) : MC A := fun w => (Ok a, w).

Definition bindC {A B} (m : MC A) (k : A -> MC B) : MC B :=
  fun w =>
    match m w with
    | (Ok a, w') => k a w'
    | (Raise e, w') => (Raise e, w')
    | (OutOfFuel, w') => (OutOfFuel, w')
    end.

Definition liftR {A} (r : res A) : MC A := fun w => (r, w).

(** A computation that leaves the caches alone. *)
Definition liftC {A} (m : M A) : MC A :=
  fun w => let (r, s') := m w.1 in (r, (s', w.2)).

Fixpoint mapMC {A B} (f : A -> MC B) (l : list A) : MC (list B) :=
  match l with
  | [] => retC []
  | x :: t =>
      bindC (f x) (fun y => bindC (mapMC f t) (fun ys => retC (y :: ys)))
  end.

(** The loop of [consecutive_swap_random_chars], after the correction. *)
Definition swap_pass (text : list ascii) (p : float) : M (list ascii) :=
  bind (swap_loop (PyFloat p)
          (zip_longest [] (chars text) (chars (drop 1 text))) [] false)
       (fun result => ret (concat result)).

(** [consecutive_swap_random_chars], its first line calling the decorated
    [unbias_swap]. *)
Definition consecutive_swap_random_chars_cached (text : list ascii)
    (p : pynum) : MC (list ascii) :=
  fun w =>
    match unbias_swap_cached w.2 p (length text) with
    | (Ok q, c') => liftC (swap_pass text q) (w.1, c')
    | (Raise e, c') => (Raise e, (w.1, c'))
    | (OutOfFuel, c') => (OutOfFuel, (w.1, c'))
    end.

Definition action_function_cached (fuel : nat) (self : CharNoiseAugmenter)
    (action : string) : res (list ascii -> pynum -> MC (list ascii)) :=
  if String.eqb action "insert" then
    Ok (fun t p => liftC (insert_random_chars self.(character_set) t p))
  else if String.eqb action "swap" then
    Ok consecutive_swap_random_chars_cached
  else if String.eqb action "substitute" then
    Ok (fun t p =>
          liftC (substitute_random_chars fuel self.(character_set) t p))
  else if String.eqb action "delete" then
    Ok (fun t p => liftC (delete_random_chars t p))
  else Raise ValueError.

Fixpoint run_actions_cached (fuel : nat) (self : CharNoiseAugmenter)
    (todo : list string) (p_effective : pynum) (t : text) : MC text :=
  match todo with
  | [] => retC t
  | action :: rest =>
      bindC (liftR (action_function_cached fuel self action)) (fun f =>
      bindC (match t with
             | Tokens ws =>
                 bindC (mapMC (fun word => f word p_effective) ws)
                       (fun ws' => retC (Tokens ws'))
             | Str s => bindC (f s p_effective) (fun s' => retC (Str s'))
             end) (fun t' =>
      run_actions_cached fuel self rest p_effective t'))
  end.

Definition add_noise_body_cached (fuel : nat) (self : CharNoiseAugmenter)
    (t : text) : MC text :=
  bindC (liftR (match t with
                | Tokens ws => unbias_split_into_words self.(noise_level) ws
                | Str _ => Ok self.(noise_level)
                end)) (fun p =>
  bindC (liftR (unbias_several_action p (length self.(actions))))
        (fun p_effective =>
  run_actions_cached fuel self self.(actions) p_effective t)).

(** [self.add_noise(text)] with the caches as they are at the call. *)
Definition add_noise_cached (fuel : nat) (self : CharNoiseAugmenter)
    (t : text) (c : caches)
  : (res text * CharNoiseAugmenter) * caches :=
  let '(r, (s', c')) := add_noise_body_cached fuel self t (self.(random), c) in
  ((r, {| actions := self.(actions);
          character_set := self.(character_set);
          noise_level := self.(noise_level);
          random := s' |}), c').

(** A sequence of [add_noise] calls on one augmenter in a process where
    other callers use [unbias_swap] too: [others i] are the calls they make
    before the call of index [i]. *)
Fixpoint add_noise_calls_cached (fuel : nat) (self : CharNoiseAugmenter)
    (c : caches) (others : nat -> list (pynum * nat)) (i : nat)
    (inputs : list text)
  : (list (res text) * CharNoiseAugmenter) * caches :=
  match inputs with
  | [] => (([], self), c)
  | t :: rest =>
      let '((r, self'), c1) :=
        add_noise_cached fuel self t (other_calls c (others i)) in
      let '((rs, self''), c2) :=
        add_noise_calls_cached fuel self' c1 others (S i) rest in
      ((r :: rs, self''), c2)
  end.

End WithRuntime.
End Cached.

(** ** A small runtime to run the model on

    A counter for a generator ([random()] cycles through 0, 1/4, 1/2, 3/4
    and [choice] walks the sequence round-robin) and stand-ins for [pow] and
    [fsolve], exact where the power is by 1, 2 or 1/2. *)
Module Sample.

Definition pow (x y : float) : float :=
  if (y =? 1)%float then x
  else if (y =? 2)%float then (x * x)%float
  else if (y =? 0.5)%float then sqrt x
  else 1%float.

#[export] Instance numeric : NumericRuntime := {
  libm_pow := pow;
  fsolve_root := fun cer _ => cer
}.

#[export] Instance counter : RandomSource := {
  rng := nat;
  rng_seed := Z.abs_nat;
  rng_random := fun s => ((float_of_nat (s mod 4) / 4)%float, S s);
  rng_randbelow := fun n s => (s mod n, S s)
}.

(** A generator with two states: [random()] is 1/4 in one and 3/4 in the
    other, a bounded draw is 1 in one and 0 in the other, and every draw
    changes the state. *)
Definition two_state : RandomSource := {|
  rng := bool;
  rng_seed := Z.even;
  rng_random := fun s => (if s then 0.25%float else 0.75%float, negb s);
  rng_randbelow := fun n s => ((if s then 1 else 0) mod n, negb s)
|}.

Definition augmenter (level : float) (acts : list string)
    (cs : list ascii) (s : nat) : Noise.CharNoiseAugmenter :=
  {| Noise.actions := acts;
     Noise.character_set := cs;
     Noise.noise_level := level;
     Noise.random := s |}.

End Sample.

(** ** The properties, and the views of the code the proofs use *)
Module Spec.

(** [correct_for_word_split]: scale [p] by [1 + n_separators / n_chars],
    and return [p] unchanged when there is no character at all. *)
Definition correct_for_word_split (p : float) (tokens : list (list ascii))
  : float :=
  let n_chars := sum_list (length <$> tokens) in
  let n_separators := (Z.of_nat (length tokens) - 1)%Z in
  if (n_chars =? 0)%nat then p
  else (p * (1 + float_of_Z n_separators / float_of_nat n_chars))%float.

(** A probability: a float of [[0, 1]]. *)
Definition in_unit_interval (p : float) : Prop :=
  (0 <=? p)%float = true /\ (p <=? 1)%float = true.

Definition float_gt (a b : float) : Prop := (b <? a)%float = true.

(** The output of a pass of non-overlapping adjacent transpositions: each
    character is kept in place or exchanged with its right neighbour, and a
    character that was exchanged is not looked at again. *)
Inductive disjoint_adjacent_swaps {A : Type} : list A -> list A -> Prop :=
  | das_nil : disjoint_adjacent_swaps [] []
  | das_keep x l l' :
      disjoint_adjacent_swaps l l' ->
      disjoint_adjacent_swaps (x :: l) (x :: l')
  | das_swap x y l l' :
      disjoint_adjacent_swaps l l' ->
      disjoint_adjacent_swaps (x :: y :: l) (y :: x :: l').

(** The same read by positions: [swaps] are the left positions of the
    transposed pairs. No position belongs to two pairs, every pair lies
    inside the text, and the output is the input with exactly these pairs
    exchanged. *)
Definition transposed_at {A : Type} (swaps : list nat) (l l' : list A)
  : Prop :=
  (forall i, i ∈ swaps -> S i < length l /\ S i ∉ swaps) /\
  length l' = length l /\
  forall i,
    l' !! i =
      if bool_decide (i ∈ swaps) then l !! S i
      else match i with
           | S j => if bool_decide (j ∈ swaps) then l !! j else l !! i
           | O => l !! i
           end.

(** An alphabet with at least two symbols. *)
Definition at_least_two_symbols (character_set : list ascii) : Prop :=
  exists a b, a ∈ character_set /\ b ∈ character_set /\ a <> b.

(** The contract of the generator's bounded draw. *)
Definition randbelow_in_range {RS : RandomSource} : Prop :=
  forall n s, 0 < n -> fst (rng_randbelow n s) < n.

(** The state after [k] bounded draws below [n]. *)
Fixpoint after_draws {RS : RandomSource} (n k : nat) (s : rng) : rng :=
  match k with
  | O => s
  | S k' => after_draws n k' (snd (rng_randbelow n s))
  end.

(** The states a run started in [s0] can go through: any sequence of
    [random()] calls and of bounded draws below [n]. *)
Inductive reachable {RS : RandomSource} (n : nat) (s0 : rng) : rng -> Prop :=
  | reach_start : reachable n s0 s0
  | reach_random s :
      reachable n s0 s -> reachable n s0 (snd (rng_random s))
  | reach_draw s :
      reachable n s0 s -> reachable n s0 (snd (rng_randbelow n s)).

(** From every state of a run started in [s0], repeated draws below [n]
    reach every index below [n]. Only the one bound [n] and only the states
    of the run are constrained, so a generator with finitely many states can
    meet it. *)
Definition reaches_every_index {RS : RandomSource} (n : nat) (s0 : rng)
  : Prop :=
  forall s, reachable n s0 s ->
    forall j, j < n ->
      exists k, fst (rng_randbelow n (after_draws n k s)) = j.

(** The three conditions under which construction is refused. *)
Definition rejected (level : float) (acts : list string) : Prop :=
  (exists a, a ∈ acts /\ a ∉ Noise._AVAILABLE_ACTIONS) \/
  ~ in_unit_interval level \/
  (float_gt level NoiseUnbiasing.MAX_SWAP_LEVEL /\ "swap"%string ∈ acts).

(** What one source character becomes under [insert]: itself, or itself
    followed by one character of the alphabet. *)
Definition inserted_piece (cs : list ascii) (char : ascii)
    (piece : list ascii) : Prop :=
  piece = [char] \/ exists r, piece = [char; r] /\ r ∈ cs.

(** What one source character becomes under [substitute]. *)
Definition substituted (cs : list ascii) (char c : ascii) : Prop :=
  c = char \/ (c ∈ cs /\ c <> char).

(** The draws of the rejection sampler read off the generator: from state
    [s], symbols of the alphabet are drawn until one differs from [char];
    that one is [c], and [s'] is the state after its draw. *)
Inductive resampled {RS : RandomSource} (cs : list ascii) (char : ascii)
  : rng -> ascii -> rng -> Prop :=
  | resampled_now s c :
      cs !! fst (rng_randbelow (length cs) s) = Some c ->
      c <> char ->
      resampled cs char s c (snd (rng_randbelow (length cs) s))
  | resampled_again s c s' :
      cs !! fst (rng_randbelow (length cs) s) = Some char ->
      resampled cs char (snd (rng_randbelow (length cs) s)) c s' ->
      resampled cs char s c s'.

(** A pass of [substitute] read off the generator, position by position.
    Each character takes one [random()]: when it is not below [p] the
    character is kept; when it is, the character is replaced by what the
    rejection sampler draws next, a symbol other than the character. *)
Inductive substitute_pass {RS : RandomSource} (cs : list ascii) (p : float)
  : list ascii -> rng -> list ascii -> rng -> Prop :=
  | pass_end s : substitute_pass cs p [] s [] s
  | pass_keep char text s out s' :
      (fst (rng_random s) <? p)%float = false ->
      substitute_pass cs p text (snd (rng_random s)) out s' ->
      substitute_pass cs p (char :: text) s (char :: out) s'
  | pass_change char text s c s1 out s' :
      (fst (rng_random s) <? p)%float = true ->
      resampled cs char (snd (rng_random s)) c s1 ->
      substitute_pass cs p text s1 out s' ->
      substitute_pass cs p (char :: text) s (c :: out) s'.

(** The pairs the loop walks over, read off the text directly. *)
Fixpoint adjacent_pairs (text : list ascii) : list (list ascii * list ascii) :=
  match text with
  | [] => []
  | c :: t =>
      ([c], match t with [] => [] | d :: _ => [d] end) :: adjacent_pairs t
  end.

(** [m'] does whatever [m] does, as soon as [m] leaves its loops: the
    reading of two runs of one computation that differ in the number of
    iterations the model allows. *)
Definition refines {RS : RandomSource} {A} (m m' : Noise.M A) : Prop :=
  forall s r s', m s = (r, s') -> r <> OutOfFuel -> m' s = (r, s').

(** The contract of [random()]: a float of [[0, 1)]. *)
Definition random_in_unit {RS : RandomSource} : Prop :=
  forall s, (0 <=? fst (rng_random s))%float = true /\
            (fst (rng_random s) <? 1)%float = true.

(** The strings of a text: the string itself, or the tokens of the list. *)
Definition tokens_of (t : Noise.text) : list (list ascii) :=
  match t with
  | Noise.Str s => [s]
  | Noise.Tokens ws => ws
  end.

(** Two texts of the same kind, with as many tokens. *)
Definition same_shape (t t' : Noise.text) : Prop :=
  match t, t' with
  | Noise.Str _, Noise.Str _ => True
  | Noise.Tokens ws, Noise.Tokens ws' => length ws' = length ws
  | _, _ => False
  end.

(** What a pass of the actions [todo] can make of one string [w]: the
    characters come from [w] or from the alphabet, the length can only grow
    through [insert] and only shrink through [delete], and without [insert]
    and [substitute] no character is new. *)
Definition noised_token (cs : list ascii) (todo : list string)
    (w w' : list ascii) : Prop :=
  (forall c, c ∈ w' -> c ∈ w \/ c ∈ cs) /\
  ("insert"%string ∉ todo -> length w' <= length w) /\
  ("delete"%string ∉ todo -> length w <= length w') /\
  ("insert"%string ∉ todo -> "substitute"%string ∉ todo -> w' ⊆+ w) /\
  ("insert"%string ∉ todo -> "substitute"%string ∉ todo ->
   "delete"%string ∉ todo -> w' ≡ₚ w).

(** The generator after [insert] has walked [n] characters: one [random()]
    and one bounded draw below [k] for each. *)
Fixpoint after_insert {RS : RandomSource} (k n : nat) (s : rng) : rng :=
  match n with
  | O => s
  | S n' => after_insert k n' (snd (rng_randbelow k (snd (rng_random s))))
  end.

(** The generator after [n] calls of [random()]. *)
Fixpoint after_randoms {RS : RandomSource} (n : nat) (s : rng) : rng :=
  match n with
  | O => s
  | S n' => after_randoms n' (snd (rng_random s))
  end.

(** The deduplicating comprehension read as a scan from the left that
    remembers the names already [seen]. *)
Fixpoint dedup_seen (seen l : list string) : list string :=
  match l with
  | [] => []
  | x :: l' =>
      (if bool_decide (x ∈ seen) then [] else [x])
        ++ dedup_seen (seen ++ [x]) l'
  end.

(** A comprehension whose body always returns, as a plain recursion: [g]
    is what the body makes of an element in a state, [step] the state it
    leaves. *)
Fixpoint scan {RS : RandomSource} {A B} (g : A -> rng -> B)
    (step : rng -> rng) (l : list A) (s : rng) : list B * rng :=
  match l with
  | [] => ([], s)
  | x :: l' =>
      let (ys, s') := scan g step l' (step s) in (g x s :: ys, s')
  end.

(** What [delete] makes of a character in a state. *)
Definition deleted_piece {RS : RandomSource} (p : float) (char : ascii) (s : rng) : list ascii :=
  if (fst (rng_random s) <? p)%float then [] else [char].

(** What [insert] makes of a character in a state, with an alphabet that is
    not empty. *)
Definition inserted_in_state {RS : RandomSource} (cs : list ascii) (p : float) (char : ascii)
    (s : rng) : list ascii :=
  let s1 := snd (rng_random s) in
  match cs !! fst (rng_randbelow (length cs) s1) with
  | Some c => if (fst (rng_random s) <? p)%float then [char; c] else [char]
  | None => [char]
  end.

(** Two floats that [==] does not tell apart, or one float twice (a NaN is
    equal to no float): they differ at most in the sign of a zero. *)
Definition same_float (a b : float) : Prop :=
  a = b \/ (a =? b)%float = true.

(** The same for the outcomes of two calls. *)
Definition same_outcome (r r' : res float) : Prop :=
  match r, r' with
  | Ok a, Ok b => same_float a b
  | Raise e, Raise e' => e = e'
  | OutOfFuel, OutOfFuel => True
  | _, _ => False
  end.

(** What the caches hold when nothing but the decorated functions fills
    them: under each key, the result of the function for that key. *)
Definition caches_hold_results {NR : NumericRuntime} (c : Cached.caches)
  : Prop :=
  (forall f n v, ((f, n), v) ∈ Cached.swap_cache c ->
     NoiseUnbiasing.unbias_swap (PyFloat f) n = Ok v) /\
  (forall f n v, ((f, n), v) ∈ Cached.solver_cache c ->
     v = NoiseUnbiasing.__compute_noise_level_from_expected_cer f n).

(** A computation over generator and caches that does to the generator, and
    returns, what [m] does, and keeps the caches as above. *)
Definition simulates {NR : NumericRuntime} {RS : RandomSource} {A}
    (mc : Cached.MC A) (m : Noise.M A) : Prop :=
  forall s c, caches_hold_results c ->
    exists r s' c',
      mc (s, c) = (r, (s', c')) /\ m s = (r, s') /\ caches_hold_results c'.

End Spec.

(** ** noise_unbiasing.py: the corrections *)
Section UnbiasingFacts.
Context {NR : NumericRuntime}.
Import NoiseUnbiasing Spec.

Lemma sum_list_replicate_nil (n : nat) :
  sum_list (length <$> replicate n (@nil ascii)) = 0.
Proof. induction n as [|n IH]; simpl; auto. Qed.

(** With at least one character the code computes the specification's
    formula. *)
Lemma unbias_split_into_words_formula (p : float) (text : list (list ascii)) :
  sum_list (length <$> text) <> 0 ->
  unbias_split_into_words p text = Ok (correct_for_word_split p text).
Proof.
  intros Hn. unfold unbias_split_into_words, correct_for_word_split.
  destruct (Nat.eqb_spec (sum_list (length <$> text)) 0); [contradiction|].
  reflexivity.
Qed.

(** C2 (the code at the inputs where the claim fails). When the tokens hold
    no character at all, whether the list is empty or every token is the
    empty string, [unbias_split_into_words] raises [ZeroDivisionError] where
    the specification returns [p]. *)
Theorem unbias_split_into_words_no_chars (p : float) (n : nat) :
  unbias_split_into_words p (replicate n []) = Raise ZeroDivisionError /\
  correct_for_word_split p (replicate n []) = p.
Proof.
  unfold unbias_split_into_words, correct_for_word_split.
  rewrite sum_list_replicate_nil. split; reflexivity.
Qed.

(** At or below the supremum, [N = 0] leaves the target as it is. *)
Lemma unbias_swap_zero_length_below_max (p : float) :
  (MAX_SWAP_LEVEL <? p)%float = false ->
  unbias_swap (PyFloat p) 0 = Ok p.
Proof. intros H. unfold unbias_swap. simpl. rewrite H. reflexivity. Qed.

End UnbiasingFacts.

(** C5 (counterexample). A target above the supremum is not returned
    unchanged for [N = 0]: [unbias_swap(0.9, 0)] is [MAX_SWAP_LEVEL], from
    the function itself and from the first call of the decorated one, and
    [MAX_SWAP_LEVEL == 0.9] is false. *)
Lemma unbias_swap_zero_length_clamps :
  NoiseUnbiasing.unbias_swap (NR := Sample.numeric) (PyFloat 0.9) 0
    = Ok NoiseUnbiasing.MAX_SWAP_LEVEL /\
  NoiseUnbiasing.unbias_swap (NR := Sample.numeric) (PyFloat 0.9) 0
    <> Ok 0.9%float /\
  fst (Cached.unbias_swap_cached (NR := Sample.numeric) Cached.no_cache
         (PyFloat 0.9) 0)
    = Ok NoiseUnbiasing.MAX_SWAP_LEVEL /\
  (NoiseUnbiasing.MAX_SWAP_LEVEL =? 0.9)%float = false.
Proof.
  split; [vm_compute; reflexivity|].
  split; [|split; vm_compute; reflexivity].
  intros H.
  assert (X : match NoiseUnbiasing.unbias_swap (NR := Sample.numeric)
                      (PyFloat 0.9) 0 with
              | Ok f => (f =? 0.9)%float
              | _ => false
              end = true) by (rewrite H; reflexivity).
  vm_compute in X. discriminate X.
Qed.

(** ** noise.py: construction *)
Section ConstructionFacts.
Context {NR : NumericRuntime} {RS : RandomSource}.
Import NoiseUnbiasing Noise Spec.

(** Deduplication keeps first occurrences, so it keeps every name. *)
Lemma elem_of_dedup_actions (acts : list string) (a : string) :
  a ∈ dedup_actions acts <-> a ∈ acts.
Proof.
  unfold dedup_actions. rewrite list_elem_of_fmap. split.
  - intros [[i x] [-> Hf]].
    apply list_elem_of_filter in Hf as [_ Hin].
    apply elem_of_lookup_imap in Hin as (j & y & Heq & Hl).
    simplify_eq. eapply list_elem_of_lookup_2; eauto.
  - intros Hin. apply list_elem_of_lookup_1 in Hin as [i Hi].
    induction i as [i IH] using lt_wf_ind.
    destruct (decide (a ∈ take i acts)) as [Hpre|Hpre].
    + apply list_elem_of_lookup_1 in Hpre as [j Hj].
      pose proof (lookup_lt_Some _ _ _ Hj) as Hlt.
      rewrite length_take in Hlt.
      rewrite lookup_take_lt in Hj by lia.
      apply (IH j); [lia|exact Hj].
    + exists (i, a). split; [reflexivity|].
      apply list_elem_of_filter. split; [exact Hpre|].
      apply elem_of_lookup_imap. eauto.
Qed.

Lemma unsupported_actions_nil (acts : list string) :
  filter (fun a => a ∉ _AVAILABLE_ACTIONS) (dedup_actions acts) = [] ->
  ~ exists a, a ∈ acts /\ a ∉ _AVAILABLE_ACTIONS.
Proof.
  intros Hnil (a & Hin & Hbad).
  apply (filter_nil_not_elem_of _ _ a Hnil Hbad).
  apply elem_of_dedup_actions, Hin.
Qed.

Lemma unsupported_actions_cons (acts : list string) :
  filter (fun a => a ∉ _AVAILABLE_ACTIONS) (dedup_actions acts) <> [] ->
  exists a, a ∈ acts /\ a ∉ _AVAILABLE_ACTIONS.
Proof.
  destruct (filter _ _) as [|a l] eqn:Hf; [contradiction|]. intros _.
  assert (Ha : a ∈ filter (fun a => a ∉ _AVAILABLE_ACTIONS)
                      (dedup_actions acts))
    by (rewrite Hf; apply list_elem_of_here).
  apply list_elem_of_filter in Ha as [Hbad Hin].
  exists a. split; [|exact Hbad]. apply elem_of_dedup_actions, Hin.
Qed.

Lemma init_outcome (level : float) (acts : list string) (cs : list ascii)
    (seed : option Z) (entropy : Z) :
  (rejected level acts /\
   __init__ level acts cs seed entropy = Raise ValueError) \/
  (~ rejected level acts /\
   __init__ level acts cs seed entropy =
     Ok {| actions := dedup_actions acts;
           character_set := cs;
           noise_level := level;
           random := new_random seed entropy |}).
Proof.
  unfold rejected, __init__, in_unit_interval, float_gt.
  case_bool_decide as Hu; simpl.
  2:{ left. split; [|reflexivity]. left.
      apply unsupported_actions_cons, Hu. }
  apply unsupported_actions_nil in Hu.
  destruct (0 <=? level)%float eqn:H0; simpl.
  2:{ left. split; [|reflexivity]. right. left. intros [? _]. discriminate. }
  destruct (level <=? 1)%float eqn:H1; simpl.
  2:{ left. split; [|reflexivity]. right. left. intros [_ ?]. discriminate. }
  destruct (MAX_SWAP_LEVEL <? level)%float eqn:Hm; simpl.
  - case_bool_decide as Hs; simpl.
    + left. split; [|reflexivity]. right. right.
      split; [reflexivity|]. apply elem_of_dedup_actions, Hs.
    + right. split; [|reflexivity].
      intros [Hbad|[Hout|[_ Hin]]].
      * exact (Hu Hbad).
      * apply Hout. split; reflexivity.
      * apply Hs, elem_of_dedup_actions, Hin.
  - right. split; [|reflexivity].
    intros [Hbad|[Hout|[Hgt _]]].
    + exact (Hu Hbad).
    + apply Hout. split; reflexivity.
    + discriminate Hgt.
Qed.

(** C6. Construction fails exactly when an action name is not one of the
    four available ones, or the noise level is outside [[0, 1]], or [swap]
    is requested with a noise level above [MAX_SWAP_LEVEL]; the failure is
    a [ValueError]; and [actions = ["swap"]] at exactly [MAX_SWAP_LEVEL] is
    accepted. *)
Theorem init_fails_exactly_when (level : float) (acts : list string)
    (cs : list ascii) (seed : option Z) (entropy : Z) :
  ((exists e, __init__ level acts cs seed entropy = Raise e) <->
     (exists a, a ∈ acts /\ a ∉ _AVAILABLE_ACTIONS) \/
     ~ in_unit_interval level \/
     (float_gt level MAX_SWAP_LEVEL /\ "swap"%string ∈ acts)) /\
  ((exists self, __init__ level acts cs seed entropy = Ok self) \/
   __init__ level acts cs seed entropy = Raise ValueError) /\
  __init__ MAX_SWAP_LEVEL ["swap"%string] cs seed entropy =
    Ok {| actions := ["swap"%string];
          character_set := cs;
          noise_level := MAX_SWAP_LEVEL;
          random := new_random seed entropy |}.
Proof.
  fold (rejected level acts). split; [|split].
  - destruct (init_outcome level acts cs seed entropy) as [[Hr ->]|[Hr ->]].
    + split; eauto.
    + split; [intros [e He]; discriminate He|contradiction].
  - destruct (init_outcome level acts cs seed entropy) as [[_ ->]|[_ ->]];
      eauto.
  - unfold __init__. vm_compute. reflexivity.
Qed.

(** C4 (amended). [__init__] never looks at [character_set]: the outcome
    for one alphabet is the outcome for any other, with only the stored
    alphabet exchanged. *)
Theorem init_ignores_character_set (level : float) (acts : list string)
    (cs cs' : list ascii) (seed : option Z) (entropy : Z) :
  __init__ level acts cs' seed entropy =
    match __init__ level acts cs seed entropy with
    | Ok self =>
        Ok {| actions := self.(actions);
              character_set := cs';
              noise_level := self.(noise_level);
              random := self.(random) |}
    | Raise e => Raise e
    | OutOfFuel => OutOfFuel
    end.
Proof.
  destruct (init_outcome level acts cs seed entropy) as [[H ->]|[H ->]];
    destruct (init_outcome level acts cs' seed entropy) as [[H' ->]|[H' ->]];
    try reflexivity; contradiction.
Qed.

End ConstructionFacts.

(** C4 (counterexample). [substitute] with the one-symbol alphabet ["a"] is
    accepted by the constructor. *)
Lemma init_accepts_single_symbol_substitute :
  Noise.__init__ (RS := Sample.counter)
      0.5 ["substitute"%string] ["a"%char] (Some 42%Z) 0%Z
    = Ok (Sample.augmenter 0.5 ["substitute"%string] ["a"%char] 42) /\
  length ["a"%char] < 2.
Proof. split; [vm_compute; reflexivity|simpl; lia]. Qed.

(** ** noise.py: the action executors *)
Section ExecutorFacts.
Context {NR : NumericRuntime} {RS : RandomSource}.
Import NoiseUnbiasing Noise Spec.

(** A float probability never makes the Bernoulli draw fail. *)
Lemma random_success_float (p : float) (s : rng) :
  _random_success (PyFloat p) s =
    (Ok (fst (rng_random s) <? p)%float, snd (rng_random s)).
Proof.
  unfold _random_success, bind, random_random, lift, py_lt.
  destruct (rng_random s) as [u s']. reflexivity.
Qed.

Lemma random_choice_spec {A} (seq : list A) (s : rng) :
  randbelow_in_range ->
  match random_choice seq s with
  | (Ok c, s') =>
      seq !! fst (rng_randbelow (length seq) s) = Some c /\
      s' = snd (rng_randbelow (length seq) s)
  | (Raise e, s') => e = IndexError /\ seq = [] /\ s' = s
  | (OutOfFuel, _) => False
  end.
Proof.
  intros Hrange. unfold random_choice.
  destruct seq as [|x seq']; [auto|].
  specialize (Hrange (length (x :: seq')) s ltac:(simpl; lia)).
  destruct (rng_randbelow (length (x :: seq')) s) as [i s'] eqn:Hdraw.
  simpl in Hrange.
  destruct (lookup_lt_is_Some_2 (x :: seq') i Hrange) as [c Hc].
  rewrite Hc. auto.
Qed.

Lemma random_char_spec (p : float) (cs : list ascii) (s : rng) :
  randbelow_in_range ->
  match _random_char (PyFloat p) cs s with
  | (Ok r, _) => r = [] \/ exists c, r = [c] /\ c ∈ cs
  | (Raise e, _) => e = IndexError /\ cs = []
  | (OutOfFuel, _) => False
  end.
Proof.
  intros Hrange. unfold _random_char, bind at 1.
  rewrite random_success_float. unfold bind, ret.
  pose proof (random_choice_spec cs (snd (rng_random s)) Hrange) as Hc.
  destruct (random_choice cs (snd (rng_random s))) as [[c| |] s']; try tauto.
  destruct Hc as [Hc _]. apply list_elem_of_lookup_2 in Hc.
  destruct (fst (rng_random s) <? p)%float; eauto.
Qed.

(** A comprehension whose body meets a specification meets it element by
    element; it fails where the first failing body does. *)
Lemma mapM_spec {A B} (f : A -> M B) (P : A -> B -> Prop)
    (E : exn -> Prop) (F : Prop) (l : list A) (s : rng) :
  (forall x s, match f x s with
               | (Ok y, _) => P x y
               | (Raise e, _) => E e
               | (OutOfFuel, _) => F
               end) ->
  match mapM f l s with
  | (Ok ys, _) => Forall2 P l ys
  | (Raise e, _) => E e /\ l <> []
  | (OutOfFuel, _) => F
  end.
Proof.
  intros Hf. revert s. induction l as [|x l IH]; intros s.
  - simpl. constructor.
  - simpl. unfold bind at 1. specialize (Hf x s).
    destruct (f x s) as [[y|e|] s1]; [|auto|auto].
    unfold bind at 1. specialize (IH s1).
    destruct (mapM f l s1) as [[ys|e|] s2]; unfold ret; simpl.
    + constructor; assumption.
    + split; [tauto|discriminate].
    + exact IH.
Qed.

Lemma insert_step_spec (p : float) (cs : list ascii) (char : ascii)
    (s : rng) :
  randbelow_in_range ->
  match bind (_random_char (PyFloat p) cs) (fun r => ret (char :: r)) s with
  | (Ok piece, _) => inserted_piece cs char piece
  | (Raise e, _) => e = IndexError /\ cs = []
  | (OutOfFuel, _) => False
  end.
Proof.
  intros Hrange. unfold bind.
  pose proof (random_char_spec p cs s Hrange) as Hr.
  destruct (_random_char (PyFloat p) cs s) as [[r| |] s1]; try tauto.
  unfold ret, inserted_piece.
  destruct Hr as [->|(c & -> & Hc)]; eauto.
Qed.

Lemma inserted_pieces_concat (cs : list ascii) (text : list ascii)
    (pieces : list (list ascii)) :
  Forall2 (inserted_piece cs) text pieces ->
  length text <= length (concat pieces) <= 2 * length text /\
  sublist text (concat pieces).
Proof.
  induction 1 as [|char piece text pieces Hp _ IH]; simpl.
  - split; [lia|constructor].
  - destruct IH as [Hlen Hsub].
    rewrite length_app.
    destruct Hp as [->|(r & -> & _)]; simpl; split; try lia.
    + apply sublist_skip, Hsub.
    + apply sublist_skip, sublist_cons, Hsub.
Qed.

(** C10. The insert executor keeps every source character in order and
    adds at most one character after each: its output is at least as long
    as the text, at most twice as long, and has the text as a subsequence.
    It returns for every text and probability as soon as the alphabet is not
    empty; with an empty alphabet and a text to noise, [choice] raises. *)
Theorem insert_random_chars_bounds (cs : list ascii) (text : list ascii)
    (p : float) (s : rng) :
  randbelow_in_range ->
  match insert_random_chars cs text (PyFloat p) s with
  | (Ok out, _) =>
      length text <= length out <= 2 * length text /\ sublist text out
  | (Raise e, _) => e = IndexError /\ cs = [] /\ text <> []
  | (OutOfFuel, _) => False
  end.
Proof.
  intros Hrange. unfold insert_random_chars, bind at 1.
  match goal with
  | |- context [mapM ?f text s] =>
      pose proof (mapM_spec f (inserted_piece cs)
                    (fun e => e = IndexError /\ cs = []) False text s
                    (fun x s0 => insert_step_spec p cs x s0 Hrange)) as Hp
  end.
  destruct (mapM _ text s) as [[pieces| |] s']; try tauto.
  unfold ret. apply (inserted_pieces_concat cs), Hp.
Qed.

(** *** swap *)

Lemma zip_longest_adjacent (text : list ascii) :
  zip_longest [] (chars text) (chars (drop 1 text)) = adjacent_pairs text.
Proof.
  induction text as [|c t IH]; [reflexivity|].
  destruct t as [|d t']; [reflexivity|].
  change (zip_longest [] (chars (c :: d :: t')) (chars (drop 1 (c :: d :: t'))))
    with (([c], [d]) :: zip_longest [] (chars (d :: t'))
                          (chars (drop 1 (d :: t')))).
  rewrite IH. reflexivity.
Qed.

(** Lists two elements at a time. *)
Lemma list_pair_ind {A} (P : list A -> Prop) :
  P [] ->
  (forall x, P [x]) ->
  (forall x y l, P l -> P (y :: l) -> P (x :: y :: l)) ->
  forall l, P l.
Proof.
  intros Hnil Hone Hstep l.
  assert (H : P l /\ forall x, P (x :: l)); [|tauto].
  induction l as [|y l [IH1 IH2]]; split; auto.
Qed.

(** The loop invariant: with [was_swapped] clear, what the loop appends to
    [result] is the remaining text after a pass of non-overlapping adjacent
    transpositions. *)
Lemma swap_loop_spec (p : float) (text : list ascii) :
  forall (result : list (list ascii)) (s : rng),
  exists r s' out,
    swap_loop (PyFloat p) (adjacent_pairs text) result false s = (Ok r, s') /\
    concat r = concat result ++ out /\
    disjoint_adjacent_swaps text out.
Proof.
  induction text as [|c|c d t IHt IHdt] using list_pair_ind;
    intros result s.
  - exists result, s, []. simpl. rewrite app_nil_r.
    repeat split. constructor.
  - simpl. unfold bind. rewrite random_success_float.
    destruct (fst (rng_random s) <? p)%float; unfold ret.
    + exists (result ++ [[]; [c]]), (snd (rng_random s)), [c].
      rewrite concat_app. repeat split. repeat constructor.
    + exists (result ++ [[c]]), (snd (rng_random s)), [c].
      rewrite concat_app. repeat split. repeat constructor.
  - change (adjacent_pairs (c :: d :: t))
      with (([c], [d]) :: adjacent_pairs (d :: t)).
    cbn [swap_loop]. unfold bind. rewrite random_success_float.
    destruct (fst (rng_random s) <? p)%float.
    + change (adjacent_pairs (d :: t))
        with (([d], match t with [] => [] | e :: _ => [e] end)
                :: adjacent_pairs t).
      cbn [swap_loop].
      destruct (IHt (result ++ [[d]; [c]]) (snd (rng_random s)))
        as (r & s' & out & Hrun & Hcat & Hswaps).
      exists r, s', (d :: c :: out). split; [exact Hrun|].
      split; [|constructor; exact Hswaps].
      rewrite Hcat, concat_app. simpl. rewrite <- app_assoc. reflexivity.
    + destruct (IHdt (result ++ [[c]]) (snd (rng_random s)))
        as (r & s' & out & Hrun & Hcat & Hswaps).
      exists r, s', (c :: out). split; [exact Hrun|].
      split; [|constructor; exact Hswaps].
      rewrite Hcat, concat_app. simpl. rewrite <- app_assoc. reflexivity.
Qed.

Lemma das_length {A} (l l' : list A) :
  disjoint_adjacent_swaps l l' -> length l' = length l.
Proof. induction 1; simpl; congruence. Qed.

Lemma das_Permutation {A} (l l' : list A) :
  disjoint_adjacent_swaps l l' -> l' ≡ₚ l.
Proof.
  induction 1 as [|x l l' _ IH|x y l l' _ IH].
  - reflexivity.
  - rewrite IH. reflexivity.
  - rewrite IH. apply Permutation_swap.
Qed.

Lemma bool_decide_S_fmap (i : nat) (l : list nat) :
  bool_decide (S i ∈ S <$> l) = bool_decide (i ∈ l).
Proof. apply bool_decide_ext, (list_elem_of_fmap_inj S). Qed.

Lemma bool_decide_O_fmap (l : list nat) :
  bool_decide (0 ∈ S <$> l) = false.
Proof.
  apply bool_decide_eq_false_2. intros H.
  apply list_elem_of_fmap in H as (j & Hj & _). discriminate Hj.
Qed.

Lemma bool_decide_S_cons_O (i : nat) (l : list nat) :
  bool_decide (S i ∈ 0 :: l) = bool_decide (S i ∈ l).
Proof.
  apply bool_decide_ext. rewrite elem_of_cons.
  split; [intros [H|H]; [discriminate H|exact H]|auto].
Qed.

Lemma bool_decide_O_cons_O (l : list nat) : bool_decide (0 ∈ 0 :: l) = true.
Proof. apply bool_decide_eq_true_2, list_elem_of_here. Qed.

(** A pass of non-overlapping adjacent transpositions, read by positions. *)
Lemma das_transposed_at {A} (l l' : list A) :
  disjoint_adjacent_swaps l l' -> exists swaps, transposed_at swaps l l'.
Proof.
  induction 1 as [|x l l' _ [swaps (Hpairs & Hlen & Hget)]
                  |x y l l' _ [swaps (Hpairs & Hlen & Hget)]].
  - exists []. split; [|split; [reflexivity|]].
    + intros i Hi. apply elem_of_nil in Hi. contradiction.
    + intros [|i]; reflexivity.
  - exists (S <$> swaps). split; [|split; [simpl; congruence|]].
    + intros i Hi. apply list_elem_of_fmap in Hi as (j & -> & Hj).
      destruct (Hpairs j Hj) as [Hlt Hfree]. split; [simpl; lia|].
      rewrite (list_elem_of_fmap_inj S). exact Hfree.
    + intros [|i].
      * rewrite bool_decide_O_fmap. reflexivity.
      * rewrite bool_decide_S_fmap. simpl. rewrite Hget.
        destruct (bool_decide (i ∈ swaps)); [reflexivity|].
        destruct i as [|j].
        -- rewrite bool_decide_O_fmap. reflexivity.
        -- rewrite bool_decide_S_fmap. reflexivity.
  - exists (0 :: (S <$> (S <$> swaps))).
    split; [|split; [simpl; congruence|]].
    + intros i Hi. apply elem_of_cons in Hi as [->|Hi].
      * split; [simpl; lia|].
        intros H1. apply elem_of_cons in H1 as [H1|H1];
          [discriminate H1|].
        apply (list_elem_of_fmap_inj_2 S) in H1.
        apply list_elem_of_fmap in H1 as (j & Hj & _). discriminate Hj.
      * apply list_elem_of_fmap in Hi as (j' & -> & Hj').
        apply list_elem_of_fmap in Hj' as (j & -> & Hj).
        destruct (Hpairs j Hj) as [Hlt Hfree]. split; [simpl; lia|].
        intros H1. apply elem_of_cons in H1 as [H1|H1];
          [discriminate H1|].
        apply (list_elem_of_fmap_inj_2 S), (list_elem_of_fmap_inj_2 S) in H1.
        exact (Hfree H1).
    + intros [|[|i]].
      * rewrite bool_decide_O_cons_O. reflexivity.
      * rewrite bool_decide_S_cons_O, bool_decide_S_fmap,
          bool_decide_O_fmap, bool_decide_O_cons_O. reflexivity.
      * rewrite !bool_decide_S_cons_O, !bool_decide_S_fmap. simpl.
        rewrite Hget.
        destruct (bool_decide (i ∈ swaps)); [reflexivity|].
        destruct i as [|j].
        -- rewrite bool_decide_O_fmap. reflexivity.
        -- rewrite !bool_decide_S_fmap. reflexivity.
Qed.

(** C7. Whenever the swap executor returns, its output has the length of
    the input, is a permutation of it, and is the input after one pass of
    adjacent transpositions in which no position takes part twice. The scan
    itself always returns; only the swap correction of the probability,
    computed first, can raise, and then no draw has been made. *)
Theorem consecutive_swap_random_chars_spec (text : list ascii) (p : pynum)
    (s : rng) :
  match consecutive_swap_random_chars text p s with
  | (Ok out, _) =>
      length out = length text /\
      out ≡ₚ text /\
      disjoint_adjacent_swaps text out /\
      exists swaps, transposed_at swaps text out
  | (Raise e, s') => unbias_swap p (length text) = Raise e /\ s' = s
  | (OutOfFuel, _) => False
  end.
Proof.
  unfold consecutive_swap_random_chars, bind at 1, lift.
  destruct (unbias_swap p (length text)) as [q|e|] eqn:Hq; [|auto|].
  - rewrite zip_longest_adjacent. unfold bind.
    destruct (swap_loop_spec q text [] s)
      as (r & s' & out & -> & Hcat & Hswaps).
    unfold ret. simpl in Hcat. rewrite Hcat.
    auto using das_length, das_Permutation, das_transposed_at.
  - unfold unbias_swap in Hq. destruct p as [f|]; simpl in Hq;
      [|discriminate Hq].
    destruct (length text =? 0)%nat; [discriminate Hq|].
    destruct (_ =? 0)%float; [discriminate Hq|].
    destruct (50 <? length text)%nat; [|discriminate Hq].
    destruct (py_pow _ 2) as [[g|]|e|] eqn:Hpow; simpl in Hq;
      try discriminate Hq.
    + unfold math_sqrt in Hq.
      destruct (_ <? 0)%float; discriminate Hq.
    + unfold py_pow in Hpow.
      repeat match type of Hpow with
             | (if ?c then _ else _) = _ => destruct c
             end; discriminate Hpow.
Qed.

(** *** substitute *)

(** What the rejection sampler returns is a symbol of the alphabet other
    than the character it replaces. *)
Lemma choose_another_character_spec (fuel : nat) (cs : list ascii)
    (char : ascii) (s : rng) (c : ascii) (s' : rng) :
  _choose_another_character fuel cs char s = (Ok c, s') ->
  c ∈ cs /\ c <> char.
Proof.
  revert s. induction fuel as [|fuel IH]; intros s; simpl.
  - unfold lift. discriminate.
  - unfold bind, random_choice.
    destruct cs as [|x cs']; [discriminate|].
    destruct (rng_randbelow (length (x :: cs')) s) as [i s1].
    destruct ((x :: cs') !! i) as [d|] eqn:Hd; [|discriminate].
    case_bool_decide as Hsame.
    + apply IH.
    + unfold ret. intros [= <- <-].
      split; [eapply list_elem_of_lookup_2, Hd|exact Hsame].
Qed.

(** More fuel never changes a result. *)
Lemma choose_another_character_mono (fuel fuel' : nat) (cs : list ascii)
    (char : ascii) (s : rng) (c : ascii) (s' : rng) :
  fuel <= fuel' ->
  _choose_another_character fuel cs char s = (Ok c, s') ->
  _choose_another_character fuel' cs char s = (Ok c, s').
Proof.
  revert fuel' s. induction fuel as [|fuel IH]; intros fuel' s Hle; simpl.
  - unfold lift. discriminate.
  - destruct fuel' as [|fuel']; [lia|]. simpl. unfold bind.
    destruct (random_choice cs s) as [[d| |] s1]; try discriminate.
    case_bool_decide; [|auto].
    apply IH. lia.
Qed.

(** What the sampler returns is what the generator's draws give. *)
Lemma choose_another_character_resampled (fuel : nat) (cs : list ascii)
    (char : ascii) (s : rng) (c : ascii) (s' : rng) :
  _choose_another_character fuel cs char s = (Ok c, s') ->
  resampled cs char s c s'.
Proof.
  revert s. induction fuel as [|fuel IH]; intros s; simpl.
  - unfold lift. discriminate.
  - unfold bind, random_choice.
    destruct cs as [|x cs']; [discriminate|].
    destruct (rng_randbelow (length (x :: cs')) s) as [i s1] eqn:Hdraw.
    destruct ((x :: cs') !! i) as [d|] eqn:Hd; [|discriminate].
    assert (Hi : i = fst (rng_randbelow (length (x :: cs')) s))
      by (rewrite Hdraw; reflexivity).
    assert (Hs1 : s1 = snd (rng_randbelow (length (x :: cs')) s))
      by (rewrite Hdraw; reflexivity).
    case_bool_decide as Hsame.
    + intros Hrun. subst d. apply resampled_again.
      * rewrite <- Hi. exact Hd.
      * rewrite <- Hs1. apply IH, Hrun.
    + unfold ret. intros [= <- <-]. rewrite Hs1.
      apply resampled_now; [rewrite <- Hi; exact Hd|exact Hsame].
Qed.

(** The sampler keeps the generator among the states of the run. *)
Lemma resampled_reachable (cs : list ascii) (char : ascii) (s0 s : rng)
    (c : ascii) (s' : rng) :
  resampled cs char s c s' ->
  reachable (length cs) s0 s -> reachable (length cs) s0 s'.
Proof.
  induction 1 as [s c Hc Hne|s c s' Hc _ IH]; intros Hs.
  - apply reach_draw, Hs.
  - apply IH, reach_draw, Hs.
Qed.

(** A generator that reaches every index of the alphabet from the state the
    sampler starts in gets it out of its loop as soon as the alphabet holds a
    symbol other than the character. *)
Lemma choose_another_character_terminates (cs : list ascii) (char : ascii)
    (s : rng) :
  randbelow_in_range ->
  (forall j, j < length cs ->
     exists k, fst (rng_randbelow (length cs)
                      (after_draws (length cs) k s)) = j) ->
  (exists c, c ∈ cs /\ c <> char) ->
  exists fuel c s',
    _choose_another_character fuel cs char s = (Ok c, s').
Proof.
  intros Hrange Hfair (c & Hc & Hne).
  apply list_elem_of_lookup_1 in Hc as [j Hj].
  pose proof (lookup_lt_Some _ _ _ Hj) as Hlt.
  destruct (Hfair j Hlt) as [k Hk]. clear Hfair.
  revert s Hk. induction k as [|k IH]; intros s Hk.
  - exists 1. simpl. unfold bind.
    pose proof (random_choice_spec cs s Hrange) as Hch.
    destruct (random_choice cs s) as [[d| |] s1].
    + destruct Hch as [Hd _]. simpl in Hk. rewrite Hk, Hj in Hd.
      injection Hd as <-. rewrite bool_decide_eq_false_2 by exact Hne.
      unfold ret. eauto.
    + destruct Hch as (_ & -> & _). simpl in Hlt. lia.
    + contradiction.
  - pose proof (random_choice_spec cs s Hrange) as Hch.
    destruct (random_choice cs s) as [[d| |] s1] eqn:Hdraw.
    + destruct Hch as [_ ->].
      destruct (decide (d = char)) as [->|Hd].
      * destruct (IH _ Hk) as (fuel & c' & s' & Hrun).
        exists (S fuel), c', s'. simpl. unfold bind. rewrite Hdraw.
        rewrite bool_decide_eq_true_2 by reflexivity. exact Hrun.
      * exists 1, d, (snd (rng_randbelow (length cs) s)).
        simpl. unfold bind. rewrite Hdraw.
        rewrite bool_decide_eq_false_2 by exact Hd. reflexivity.
    + destruct Hch as (_ & -> & _). simpl in Hlt. lia.
    + contradiction.
Qed.

Lemma substituted_other (cs : list ascii) (char : ascii) :
  at_least_two_symbols cs -> exists c, c ∈ cs /\ c <> char.
Proof.
  intros (a & b & Ha & Hb & Hab).
  destruct (decide (a = char)) as [->|Hne]; eauto.
Qed.

Lemma substitute_pieces (cs : list ascii) (p : float) (text : list ascii)
    (s0 : rng) :
  randbelow_in_range -> reaches_every_index (length cs) s0 ->
  at_least_two_symbols cs ->
  forall s, reachable (length cs) s0 s ->
    exists fuel0, forall fuel, fuel0 <= fuel ->
    exists pieces s',
      mapM (fun char =>
              bind (_random_success (PyFloat p))
                (fun b : bool =>
                   if b
                   then bind (_choose_another_character fuel cs char)
                             (fun c => ret [c])
                   else ret [char])) text s = (Ok pieces, s') /\
      Forall2 (fun char piece => exists c, piece = [c] /\
                                           substituted cs char c)
              text pieces /\
      substitute_pass cs p text s (concat pieces) s'.
Proof.
  intros Hrange Hfair Htwo.
  induction text as [|char text IH]; intros s Hs.
  - exists 0. intros fuel _. exists [], s.
    split; [reflexivity|]. split; constructor.
  - pose proof (random_success_float p s) as Hdraw.
    destruct (fst (rng_random s) <? p)%float eqn:Hb.
    + destruct (choose_another_character_terminates cs char
                  (snd (rng_random s)) Hrange
                  (Hfair _ (reach_random _ _ _ Hs))
                  (substituted_other cs char Htwo))
        as (f1 & c & s1 & Hrun).
      pose proof (choose_another_character_resampled _ _ _ _ _ _ Hrun)
        as Hres.
      destruct (IH s1 (resampled_reachable _ _ _ _ _ _ Hres
                         (reach_random _ _ _ Hs))) as (f2 & Hrest).
      exists (Nat.max f1 f2). intros fuel Hle.
      destruct (Hrest fuel ltac:(lia)) as (pieces & s' & Hmap & Hall & Hpass).
      exists ([c] :: pieces), s'. split; [|split].
      * simpl. unfold bind at 1. unfold bind at 1. rewrite Hdraw.
        unfold bind at 1.
        rewrite (choose_another_character_mono f1 fuel cs char _ c s1)
          by (lia || exact Hrun).
        unfold ret at 1. unfold bind at 1. rewrite Hmap. reflexivity.
      * constructor; [|exact Hall]. exists c. split; [reflexivity|].
        right. eapply choose_another_character_spec, Hrun.
      * simpl. eapply pass_change; eassumption.
    + destruct (IH (snd (rng_random s)) (reach_random _ _ _ Hs))
        as (f2 & Hrest).
      exists f2. intros fuel Hle.
      destruct (Hrest fuel Hle) as (pieces & s' & Hmap & Hall & Hpass).
      exists ([char] :: pieces), s'. split; [|split].
      * simpl. unfold bind at 1. unfold bind at 1. rewrite Hdraw.
        unfold ret at 1. unfold bind at 1. rewrite Hmap. reflexivity.
      * constructor; [|exact Hall]. exists char. split; [reflexivity|].
        left. reflexivity.
      * simpl. apply pass_keep; assumption.
Qed.

Lemma substituted_concat (cs : list ascii) (text : list ascii)
    (pieces : list (list ascii)) :
  Forall2 (fun char piece => exists c, piece = [c] /\ substituted cs char c)
          text pieces ->
  length (concat pieces) = length text /\
  Forall2 (substituted cs) text (concat pieces).
Proof.
  induction 1 as [|char piece text pieces (c & -> & Hc) _ [IHl IHf]]; simpl.
  - split; [reflexivity|constructor].
  - split; [congruence|constructor; assumption].
Qed.

(** C8. With an alphabet of at least two symbols, and a generator whose
    bounded draws stay in range and, from the states of the run, reach every
    index of the alphabet, the substitute executor returns once the rejection
    loop is allowed enough iterations. Its output has the length of the
    text. It is the pass the generator's draws dictate: a position whose
    [random()] is not below [p] holds the original character, and a position
    whose [random()] is below [p] holds the first symbol drawn from the
    alphabet that differs from the original, so a mutated position never
    reproduces it. Hence every position holds the original character or a
    symbol of the alphabet different from it, and whatever the rejection
    sampler returns differs from the character it replaces. *)
Theorem substitute_random_chars_spec (cs : list ascii) (text : list ascii)
    (p : float) (s : rng) :
  randbelow_in_range -> reaches_every_index (length cs) s ->
  at_least_two_symbols cs ->
  (exists fuel0, forall fuel, fuel0 <= fuel ->
     exists out s',
       substitute_random_chars fuel cs text (PyFloat p) s = (Ok out, s') /\
       length out = length text /\
       Forall2 (substituted cs) text out /\
       substitute_pass cs p text s out s') /\
  (forall fuel char s0 c s1,
     _choose_another_character fuel cs char s0 = (Ok c, s1) ->
     c ∈ cs /\ c <> char).
Proof.
  intros Hrange Hfair Htwo. split.
  - destruct (substitute_pieces cs p text s Hrange Hfair Htwo s
                (reach_start _ _))
      as (fuel0 & Hrun).
    exists fuel0. intros fuel Hle.
    destruct (Hrun fuel Hle) as (pieces & s' & Hmap & Hall & Hpass).
    exists (concat pieces), s'. split; [|split; [|split]].
    + unfold substitute_random_chars, bind at 1. rewrite Hmap. reflexivity.
    + apply (substituted_concat cs), Hall.
    + apply (substituted_concat cs), Hall.
    + exact Hpass.
  - intros fuel char s0 c s1. apply choose_another_character_spec.
Qed.

(** With a single symbol the sampler never leaves its loop on that
    symbol, whatever the number of iterations it is allowed. *)
Lemma choose_another_character_single_symbol (fuel : nat) (c : ascii)
    (s : rng) :
  randbelow_in_range ->
  fst (_choose_another_character fuel [c] c s) = OutOfFuel.
Proof.
  intros Hrange. revert s. induction fuel as [|fuel IH]; intros s.
  - reflexivity.
  - simpl. unfold bind.
    pose proof (random_choice_spec [c] s Hrange) as Hch.
    destruct (random_choice [c] s) as [[d| |] s1].
    + destruct Hch as [Hd _]. apply list_elem_of_lookup_2 in Hd.
      apply list_elem_of_singleton in Hd as ->.
      rewrite bool_decide_eq_true_2 by reflexivity. apply IH.
    + destruct Hch as (_ & Hnil & _). discriminate Hnil.
    + contradiction.
Qed.

(** *** delete *)

Lemma delete_random_chars_sublist (text : list ascii) (p : float) (s : rng) :
  exists out s',
    delete_random_chars text (PyFloat p) s = (Ok out, s') /\
    sublist out text /\ length out <= length text.
Proof.
  unfold delete_random_chars, bind at 1.
  match goal with
  | |- context [mapM ?f text s] =>
      assert (Hp := mapM_spec f
                (fun char piece => piece = [] \/ piece = [char])
                (fun _ => False) False text s)
  end.
  assert (Hall : match mapM
                         (fun char => bind (_random_success (PyFloat p))
                            (fun b : bool => ret (if b then [] else [char])))
                         text s with
                 | (Ok pieces, _) =>
                     Forall2 (fun char piece => piece = [] \/ piece = [char])
                             text pieces
                 | (Raise _, _) => False /\ text <> []
                 | (OutOfFuel, _) => False
                 end).
  { apply Hp. intros x s0. unfold bind.
    rewrite random_success_float. unfold ret.
    destruct (_ <? _)%float; auto. }
  clear Hp.
  destruct (mapM _ text s) as [[pieces| |] s']; [|tauto|tauto].
  exists (concat pieces), s'. split; [reflexivity|].
  induction Hall as [|char piece text' pieces' Hpc _ [IHs IHl]].
  - split; [constructor|reflexivity].
  - simpl. rewrite length_app.
    destruct Hpc as [->| ->]; simpl.
    + split; [apply sublist_cons, IHs|lia].
    + split; [apply sublist_skip, IHs|lia].
Qed.

End ExecutorFacts.

(** ** noise.py: [add_noise] *)
Section AugmenterFacts.
Context {NR : NumericRuntime} {RS : RandomSource}.
Import NoiseUnbiasing Noise Spec.

(** C1 (the code at the inputs where the claim fails). On a token list that
    holds no character, the empty list included, [add_noise] raises
    [ZeroDivisionError] before any draw, for every augmenter; the
    specification asks for the input back. *)
Theorem add_noise_no_chars_raises (fuel : nat) (self : CharNoiseAugmenter)
    (n : nat) :
  add_noise fuel self (Tokens (replicate n [])) =
    (Raise ZeroDivisionError, self).
Proof.
  unfold add_noise, add_noise_body, bind, lift, unbias_split_into_words.
  rewrite sum_list_replicate_nil. destruct self; reflexivity.
Qed.

(** C3 (the code at an input where the claim fails). The augmenter built
    with [noise_level=0.9] and [actions=("insert", "delete")] is valid. On
    the tokens ["a"] and ["b"] the word-split correction yields a value above
    1, the composition correction turns it into a complex number, and the
    first executor raises [TypeError] on its first draw. *)
Theorem corrected_probability_leaves_unit_interval (fuel : nat)
    (cs : list ascii) (seed : option Z) (entropy : Z) :
  let self := {| actions := ["insert"; "delete"]%string;
                 character_set := cs;
                 noise_level := 0.9%float;
                 random := new_random seed entropy |} in
  let tokens := [["a"%char]; ["b"%char]] in
  __init__ 0.9 ["insert"; "delete"]%string cs seed entropy = Ok self /\
  (exists p, unbias_split_into_words 0.9 tokens = Ok p /\
             (1 <? p)%float = true /\
             unbias_several_action p 2 = Ok PyComplex) /\
  fst (add_noise fuel self (Tokens tokens)) = Raise TypeError.
Proof.
  intros self tokens. split; [|split].
  - vm_compute. reflexivity.
  - eexists. split; [reflexivity|]. split; vm_compute; reflexivity.
  - unfold self, tokens. clear self tokens.
    generalize (new_random seed entropy). intros s0.
    cbv -[rng_random]. destruct (rng_random s0) as [u s1]. reflexivity.
Qed.

(** *** The iteration bound of the model does not show in the results *)

Lemma refines_refl {A} (m : M A) : refines m m.
Proof. intros s r s' H _. exact H. Qed.

Lemma refines_bind {A B} (m m' : M A) (k k' : A -> M B) :
  refines m m' -> (forall a, refines (k a) (k' a)) ->
  refines (bind m k) (bind m' k').
Proof.
  intros Hm Hk s r s' Hrun Hr. unfold bind in *.
  destruct (m s) as [[a|e|] s1] eqn:Hms.
  - rewrite (Hm s (Ok a) s1 Hms) by discriminate. apply Hk; assumption.
  - rewrite (Hm s (Raise e) s1 Hms) by discriminate. exact Hrun.
  - injection Hrun as <- _. contradiction.
Qed.

Lemma refines_mapM {A B} (f g : A -> M B) (l : list A) :
  (forall x, refines (f x) (g x)) -> refines (mapM f l) (mapM g l).
Proof.
  intros Hfg. induction l as [|x l IH]; simpl.
  - apply refines_refl.
  - apply refines_bind; [apply Hfg|]. intros y.
    apply refines_bind; [exact IH|]. intros ys. apply refines_refl.
Qed.

Lemma refines_choose_another_character (fuel fuel' : nat)
    (cs : list ascii) (char : ascii) :
  fuel <= fuel' ->
  refines (_choose_another_character fuel cs char)
          (_choose_another_character fuel' cs char).
Proof.
  revert fuel'. induction fuel as [|fuel IH]; intros fuel' Hle.
  - intros s r s' Hrun Hr. simpl in Hrun. unfold lift in Hrun.
    injection Hrun as <- _. contradiction.
  - destruct fuel' as [|fuel']; [lia|]. simpl.
    apply refines_bind; [apply refines_refl|]. intros c.
    case_bool_decide; [apply IH; lia|apply refines_refl].
Qed.

Lemma refines_substitute_random_chars (fuel fuel' : nat) (cs : list ascii)
    (word : list ascii) (p : pynum) :
  fuel <= fuel' ->
  refines (substitute_random_chars fuel cs word p)
          (substitute_random_chars fuel' cs word p).
Proof.
  intros Hle. unfold substitute_random_chars.
  apply refines_bind; [|intros; apply refines_refl].
  apply refines_mapM. intros char.
  apply refines_bind; [apply refines_refl|]. intros [|];
    [|apply refines_refl].
  apply refines_bind; [|intros; apply refines_refl].
  apply refines_choose_another_character, Hle.
Qed.

Lemma action_function_fuel (fuel fuel' : nat) (self : CharNoiseAugmenter)
    (action : string) :
  fuel <= fuel' ->
  match action_function fuel self action,
        action_function fuel' self action with
  | Ok f, Ok f' => forall word p, refines (f word p) (f' word p)
  | Raise e, Raise e' => e = e'
  | _, _ => False
  end.
Proof.
  intros Hle. unfold action_function.
  repeat match goal with
         | |- context [String.eqb action ?a] => destruct (String.eqb action a)
         end;
    try reflexivity; intros word p;
    first [apply refines_refl
          |apply refines_substitute_random_chars, Hle].
Qed.

Lemma refines_run_actions (fuel fuel' : nat) (self : CharNoiseAugmenter)
    (todo : list string) (p : pynum) (t : text) :
  fuel <= fuel' ->
  refines (run_actions fuel self todo p t) (run_actions fuel' self todo p t).
Proof.
  intros Hle. revert t. induction todo as [|action todo IH]; intros t.
  - apply refines_refl.
  - simpl. pose proof (action_function_fuel fuel fuel' self action Hle) as Hf.
    destruct (action_function fuel self action) as [f|e|],
             (action_function fuel' self action) as [f'|e'|];
      try contradiction.
    + intros s r s' Hrun Hr. unfold bind at 1, lift at 1 in Hrun.
      unfold bind at 1, lift at 1. revert s r s' Hrun Hr.
      change (refines
                (bind match t with
                      | Str s0 => bind (f s0 p) (fun s' => ret (Str s'))
                      | Tokens ws =>
                          bind (mapM (fun word => f word p) ws)
                               (fun ws' => ret (Tokens ws'))
                      end (fun t' => run_actions fuel self todo p t'))
                (bind match t with
                      | Str s0 => bind (f' s0 p) (fun s' => ret (Str s'))
                      | Tokens ws =>
                          bind (mapM (fun word => f' word p) ws)
                               (fun ws' => ret (Tokens ws'))
                      end (fun t' => run_actions fuel' self todo p t'))).
      apply refines_bind; [|exact IH].
      destruct t as [s0|ws].
      * apply refines_bind; [apply Hf|intros; apply refines_refl].
      * apply refines_bind; [|intros; apply refines_refl].
        apply refines_mapM. intros word. apply Hf.
    + subst e'. apply refines_refl.
Qed.

(** A call that returns or raises under one bound on the rejection loop
    does the same, and leaves the same state, under every larger bound. *)
Lemma add_noise_fuel_independent (fuel fuel' : nat)
    (self : CharNoiseAugmenter) (t : text) (r : res text)
    (self' : CharNoiseAugmenter) :
  fuel <= fuel' ->
  add_noise fuel self t = (r, self') -> r <> OutOfFuel ->
  add_noise fuel' self t = (r, self').
Proof.
  intros Hle Hrun Hr. unfold add_noise in *.
  assert (Hbody : refines (add_noise_body fuel self t)
                          (add_noise_body fuel' self t)).
  { unfold add_noise_body.
    apply refines_bind; [apply refines_refl|]. intros p.
    apply refines_bind; [apply refines_refl|]. intros q.
    apply refines_run_actions, Hle. }
  destruct (add_noise_body fuel self t (random self)) as [r0 s0] eqn:Hb.
  injection Hrun as <- <-.
  rewrite (Hbody _ _ _ Hb Hr). reflexivity.
Qed.

End AugmenterFacts.

(** ** The sample runtime meets the generator's contract *)
Section SampleFacts.
Import NoiseUnbiasing Noise Spec.

Lemma counter_in_range : randbelow_in_range (RS := Sample.counter).
Proof. intros n s Hn. simpl. apply Nat.mod_upper_bound. lia. Qed.

Lemma counter_after_draws (n k s : nat) :
  after_draws (RS := Sample.counter) n k s = s + k.
Proof.
  revert s. induction k as [|k IH]; intros s; simpl; [lia|].
  rewrite IH. lia.
Qed.

Lemma counter_reaches_every_index (n s0 : nat) :
  reaches_every_index (RS := Sample.counter) n s0.
Proof.
  intros s _ j Hj. exists (j + (n - s mod n)).
  rewrite counter_after_draws. simpl. symmetry.
  apply (Nat.mod_unique _ _ (s / n + 1)); [exact Hj|].
  pose proof (Nat.div_mod_eq s n) as Hs.
  pose proof (Nat.mod_upper_bound s n ltac:(lia)) as Hm.
  lia.
Qed.

Lemma two_state_in_range : randbelow_in_range (RS := Sample.two_state).
Proof. intros n s Hn. simpl. apply Nat.mod_upper_bound. lia. Qed.

(** The generator with two states reaches both indices of an alphabet of
    two symbols, from either state. *)
Lemma two_state_reaches_every_index (s0 : bool) :
  reaches_every_index (RS := Sample.two_state) 2 s0.
Proof.
  intros s _ j Hj.
  destruct s, j as [|[|j]]; try lia;
    first [exists 0; reflexivity | exists 1; reflexivity].
Qed.

Lemma xy_two_symbols : at_least_two_symbols ["x"; "y"]%char.
Proof.
  exists "x"%char, "y"%char.
  split; [apply list_elem_of_here|].
  split; [apply list_elem_of_further, list_elem_of_here|discriminate].
Qed.

End SampleFacts.

(** C10 on the sample runtime: ["hello"] with the alphabet ["xy"]. *)
Lemma insert_random_chars_bounds_witness :
  Spec.randbelow_in_range (RS := Sample.counter) /\
  match Noise.insert_random_chars (RS := Sample.counter)
          ["x"; "y"]%char (list_ascii_of_string "hello") (PyFloat 0.5) 0 with
  | (Ok out, _) =>
      length (list_ascii_of_string "hello") <= length out
        <= 2 * length (list_ascii_of_string "hello") /\
      sublist (list_ascii_of_string "hello") out
  | (Raise e, _) =>
      e = IndexError /\ ["x"; "y"]%char = [] /\
      list_ascii_of_string "hello" <> []
  | (OutOfFuel, _) => False
  end.
Proof.
  split; [exact counter_in_range|].
  exact (insert_random_chars_bounds (RS := Sample.counter)
           ["x"; "y"]%char (list_ascii_of_string "hello") 0.5 0
           counter_in_range).
Defined.

(** C8 on the generator with two states: ["hexlyo"] with the alphabet
    ["xy"]. *)
Lemma substitute_random_chars_spec_witness :
  Spec.randbelow_in_range (RS := Sample.two_state) /\
  Spec.reaches_every_index (RS := Sample.two_state)
    (length ["x"; "y"]%char) true /\
  Spec.at_least_two_symbols ["x"; "y"]%char /\
  (exists fuel0, forall fuel, fuel0 <= fuel ->
     exists out s',
       Noise.substitute_random_chars (RS := Sample.two_state) fuel
         ["x"; "y"]%char (list_ascii_of_string "hexlyo") (PyFloat 0.5) true
         = (Ok out, s') /\
       length out = length (list_ascii_of_string "hexlyo") /\
       Forall2 (Spec.substituted ["x"; "y"]%char)
               (list_ascii_of_string "hexlyo") out /\
       Spec.substitute_pass (RS := Sample.two_state) ["x"; "y"]%char 0.5
         (list_ascii_of_string "hexlyo") true out s') /\
  (forall fuel char s0 c s1,
     Noise._choose_another_character (RS := Sample.two_state) fuel
       ["x"; "y"]%char char s0 = (Ok c, s1) ->
     c ∈ ["x"; "y"]%char /\ c <> char).
Proof.
  split; [exact two_state_in_range|].
  split; [exact (two_state_reaches_every_index true)|].
  split; [exact xy_two_symbols|].
  exact (substitute_random_chars_spec (RS := Sample.two_state)
           ["x"; "y"]%char (list_ascii_of_string "hexlyo") 0.5 true
           two_state_in_range (two_state_reaches_every_index true)
           xy_two_symbols).
Defined.

(** ** Runs of the model *)
Section Runs.
Import NoiseUnbiasing Noise Spec Sample.
Local Open Scope string_scope.

Example swap_hello :
  fst (add_noise 5 (Sample.augmenter 0.5 ["swap"] ["x"; "y"]%char 0)
         (Str (list_ascii_of_string "hello")))
  = Ok (Str (list_ascii_of_string "ehllo")).
Proof. vm_compute. reflexivity. Qed.

Example insert_hello :
  fst (add_noise 5 (Sample.augmenter 0.5 ["insert"] ["x"; "y"]%char 0)
         (Str (list_ascii_of_string "hello")))
  = Ok (Str (list_ascii_of_string "hyelyloy")).
Proof. vm_compute. reflexivity. Qed.

Example substitute_hexlyo :
  fst (add_noise 5 (Sample.augmenter 0.5 ["substitute"] ["x"; "y"]%char 0)
         (Str (list_ascii_of_string "hexlyo")))
  = Ok (Str (list_ascii_of_string "yexyyo")).
Proof. vm_compute. reflexivity. Qed.

Example empty_string_is_kept :
  fst (add_noise 5
         (Sample.augmenter 0.5 ["insert"; "swap"; "substitute"; "delete"]
            ["x"; "y"]%char 0)
         (Str []))
  = Ok (Str []).
Proof. vm_compute. reflexivity. Qed.

(** A valid augmenter without any action divides by zero on every input. *)
Example no_action_raises :
  __init__ (RS := Sample.counter) 0.5 [] ["x"; "y"]%char (Some 0%Z) 0%Z
    = Ok (Sample.augmenter 0.5 [] ["x"; "y"]%char 0) /\
  fst (add_noise 5 (Sample.augmenter 0.5 [] ["x"; "y"]%char 0)
         (Str (list_ascii_of_string "abc")))
    = Raise ZeroDivisionError.
Proof. split; vm_compute; reflexivity. Qed.

(** With one action the composition correction is the identity, and a
    word-split correction above 1 reaches the executor as it is. *)
Example word_split_above_one :
  unbias_split_into_words 1 [["a"%char]; ["b"%char]] = Ok 1.5%float /\
  unbias_several_action (NR := Sample.numeric) 1.5 1 = Ok (PyFloat 1.5).
Proof. split; vm_compute; reflexivity. Qed.

(** The outputs the repository's test expects of swap on ["abcd"] are
    exactly the passes of non-overlapping adjacent transpositions. *)
(** On the generator with two states every other [random()] succeeds, and
    the rejection sampler draws ["x"] first: the ["x"] of the text takes a
    second draw and becomes ["y"]. *)
Example substitute_hexlyo_two_state :
  substitute_random_chars (RS := Sample.two_state) 2 ["x"; "y"]%char
    (list_ascii_of_string "hexlyo") (PyFloat 0.5) true
  = (Ok (list_ascii_of_string "xxylxx"), true).
Proof. vm_compute. reflexivity. Qed.

(** What a cache hit can change: after [unbias_swap(-0.0, 0)] the call
    [unbias_swap(0.0, 0)] returns the [-0.0] stored under the equal key,
    where the first call of a process returns [0.0]. *)
Example cached_zero_keeps_first_sign :
  match fst (Cached.unbias_swap_cached
               (Cached.other_calls Cached.no_cache [(PyFloat (-0)%float, 0)])
               (PyFloat 0) 0) with
  | Ok v => Prim2SF v
  | _ => S754_nan
  end = S754_zero true /\
  match fst (Cached.unbias_swap_cached Cached.no_cache (PyFloat 0) 0) with
  | Ok v => Prim2SF v
  | _ => S754_nan
  end = S754_zero false.
Proof. split; vm_compute; reflexivity. Qed.

Example swaps_of_abcd (a b c d : ascii) (out : list ascii) :
  disjoint_adjacent_swaps [a; b; c; d] out <->
  out ∈ [[a; b; c; d]; [a; b; d; c]; [a; c; b; d]; [b; a; c; d];
         [b; a; d; c]].
Proof.
  split.
  - intros H.
    repeat match goal with
           | H : disjoint_adjacent_swaps (_ :: _) _ |- _ =>
               inversion H; clear H; subst
           | H : disjoint_adjacent_swaps [] _ |- _ =>
               inversion H; clear H; subst
           end;
      repeat first [apply list_elem_of_here | apply list_elem_of_further].
  - intros H.
    repeat (apply elem_of_cons in H as [->|H];
            [repeat constructor|]).
    apply elem_of_nil in H. contradiction.
Qed.

End Runs.

(** ** The order of binary64 floats

    Comparisons of primitive floats, through their specification: what
    the guards [random() < p], [noise_level > max_level] and
    [0 <= noise_level <= 1] allow one to conclude. *)
Section FloatOrder.

Lemma SFcompare_antisym (x y : spec_float) :
  SFcompare y x = option_map CompOpp (SFcompare x y).
Proof.
  destruct x as [sx|sx| |sx mx ex], y as [sy|sy| |sy my ey]; simpl;
    try reflexivity;
    try (destruct sx; reflexivity); try (destruct sy; reflexivity);
    try (destruct sx, sy; reflexivity).
  destruct sx, sy; simpl; try reflexivity;
    rewrite (Z.compare_antisym ex ey);
    destruct (ex ?= ey)%Z; simpl; try reflexivity;
    rewrite !Pos.compare_cont_spec; simpl;
    rewrite (Pos.compare_antisym mx my);
    destruct (mx ?= my)%positive; reflexivity.
Qed.

(** Two comparisons that do not go down compose, and the result is an
    equality only when both are. *)
Lemma SFcompare_trans (x y z : spec_float) (c1 c2 : comparison) :
  SFcompare x y = Some c1 -> SFcompare y z = Some c2 ->
  c1 <> Gt -> c2 <> Gt ->
  SFcompare x z = Some (match c1, c2 with Eq, Eq => Eq | _, _ => Lt end).
Proof.
  intros Hxy Hyz H1 H2.
  destruct x as [sx|sx| |sx mx ex], y as [sy|sy| |sy my ey],
           z as [sz|sz| |sz mz ez]; simpl in *;
    try discriminate;
    repeat match goal with s : bool |- _ => destruct s end;
    simpl in *;
    try (injection Hxy as <-); try (injection Hyz as <-);
    simpl in *; try congruence;
    try solve
      [ rewrite ?Pos.compare_cont_spec in *; simpl in *;
        destruct (Z.compare_spec ex ey), (Z.compare_spec ey ez),
                 (Z.compare_spec ex ez);
        destruct (Pos.compare_spec mx my), (Pos.compare_spec my mz),
                 (Pos.compare_spec mx mz);
        simpl in *; congruence || lia
      | repeat match goal with
               | H : context [(?a ?= ?b)%Z] |- _ =>
                   destruct (a ?= b)%Z; simpl in *
               | H : context [PosDef.Pos.compare_cont Eq ?a ?b] |- _ =>
                   destruct (PosDef.Pos.compare_cont Eq a b); simpl in *
               end; congruence ].
Qed.

Lemma float_leb_ltb_false (x y : float) :
  (x <=? y)%float = true -> (y <? x)%float = false.
Proof.
  rewrite leb_spec, ltb_spec. unfold SFleb, SFltb.
  rewrite (SFcompare_antisym (Prim2SF x) (Prim2SF y)).
  destruct (SFcompare (Prim2SF x) (Prim2SF y)) as [[| |]|];
    simpl; congruence.
Qed.

Lemma float_ltb_leb_trans (x y z : float) :
  (x <? y)%float = true -> (y <=? z)%float = true -> (x <? z)%float = true.
Proof.
  rewrite !ltb_spec, leb_spec. unfold SFleb, SFltb.
  destruct (SFcompare (Prim2SF x) (Prim2SF y)) as [[| |]|] eqn:Hxy;
    try discriminate.
  destruct (SFcompare (Prim2SF y) (Prim2SF z)) as [[| |]|] eqn:Hyz;
    try discriminate; intros _ _;
    rewrite (SFcompare_trans _ _ _ _ _ Hxy Hyz); congruence.
Qed.

Lemma float_leb_ltb_trans (x y z : float) :
  (x <=? y)%float = true -> (y <? z)%float = true -> (x <? z)%float = true.
Proof.
  rewrite !ltb_spec, leb_spec. unfold SFleb, SFltb.
  destruct (SFcompare (Prim2SF y) (Prim2SF z)) as [[| |]|] eqn:Hyz;
    try (intros _; discriminate).
  destruct (SFcompare (Prim2SF x) (Prim2SF y)) as [[| |]|] eqn:Hxy;
    try discriminate; intros _ _;
    rewrite (SFcompare_trans _ _ _ _ _ Hxy Hyz); congruence.
Qed.

Lemma float_leb_trans (x y z : float) :
  (x <=? y)%float = true -> (y <=? z)%float = true -> (x <=? z)%float = true.
Proof.
  rewrite !leb_spec. unfold SFleb.
  destruct (SFcompare (Prim2SF x) (Prim2SF y)) as [[| |]|] eqn:Hxy;
    try discriminate;
    destruct (SFcompare (Prim2SF y) (Prim2SF z)) as [[| |]|] eqn:Hyz;
    try discriminate; intros _ _;
    rewrite (SFcompare_trans _ _ _ _ _ Hxy Hyz); congruence.
Qed.

Lemma SFleb_not_nan (a x : spec_float) :
  SFleb a x = true -> x <> S754_nan.
Proof.
  intros H ->. unfold SFleb in H. destruct a; discriminate H.
Qed.

Lemma SFcompare_total (x y : spec_float) :
  x <> S754_nan -> y <> S754_nan -> exists c, SFcompare x y = Some c.
Proof.
  intros Hx Hy.
  destruct x as [sx|sx| |sx mx ex], y as [sy|sy| |sy my ey]; simpl;
    try contradiction; eauto.
Qed.

(** A float that is above something is not a NaN, and two floats that are
    not NaN compare one way or the other. *)
Lemma float_leb_total (a b x y : float) :
  (a <=? x)%float = true -> (b <=? y)%float = true ->
  (x <? y)%float = false -> (y <=? x)%float = true.
Proof.
  rewrite !leb_spec, ltb_spec. intros Hx Hy.
  apply SFleb_not_nan in Hx, Hy.
  destruct (SFcompare_total _ _ Hx Hy) as [c Hc].
  unfold SFleb, SFltb.
  rewrite (SFcompare_antisym (Prim2SF x) (Prim2SF y)), Hc.
  destruct c; simpl; congruence.
Qed.

End FloatOrder.

(** ** noise.py: what every returned result satisfies *)
Section ResultFacts.
Context {NR : NumericRuntime} {RS : RandomSource}.
Import NoiseUnbiasing Noise Spec.

Lemma bind_ok_inv {A B} (m : M A) (k : A -> M B) (s : rng) (b : B)
    (s' : rng) :
  bind m k s = (Ok b, s') ->
  exists a s1, m s = (Ok a, s1) /\ k a s1 = (Ok b, s').
Proof.
  unfold bind. destruct (m s) as [[a|e|] s1]; try discriminate. eauto.
Qed.

Lemma ret_ok_inv {A} (a b : A) (s s' : rng) :
  ret a s = (Ok b, s') -> b = a /\ s' = s.
Proof. unfold ret. intros [= <- <-]. auto. Qed.

Lemma mapM_ok_inv {A B} (f : A -> M B) (P : A -> B -> Prop) (l : list A)
    (s : rng) (ys : list B) (s' : rng) :
  (forall x s0 y s1, f x s0 = (Ok y, s1) -> P x y) ->
  mapM f l s = (Ok ys, s') -> Forall2 P l ys.
Proof.
  intros Hf Hrun.
  pose proof (mapM_spec f P (fun _ => True) True l s) as Hspec.
  rewrite Hrun in Hspec. apply Hspec. intros x s0.
  destruct (f x s0) as [[y|e|] s1] eqn:Hx; eauto.
Qed.

Lemma random_choice_ok_elem {A} (seq : list A) (s : rng) (c : A) (s' : rng) :
  random_choice seq s = (Ok c, s') -> c ∈ seq.
Proof.
  unfold random_choice. destruct seq as [|x seq']; [discriminate|].
  destruct (rng_randbelow _ s) as [i s1].
  destruct (_ !! i) as [d|] eqn:Hd; [|discriminate].
  intros [= <- <-]. eapply list_elem_of_lookup_2, Hd.
Qed.

Lemma insert_ok (cs text : list ascii) (p : pynum) (s : rng)
    (out : list ascii) (s' : rng) :
  insert_random_chars cs text p s = (Ok out, s') ->
  exists pieces, Forall2 (inserted_piece cs) text pieces /\
                 out = concat pieces.
Proof.
  unfold insert_random_chars. intros Hrun.
  apply bind_ok_inv in Hrun as (pieces & s1 & Hmap & Hret).
  apply ret_ok_inv in Hret as [-> _].
  exists pieces. split; [|reflexivity].
  eapply mapM_ok_inv; [|exact Hmap].
  intros char s0 piece s2 Hstep.
  apply bind_ok_inv in Hstep as (r & s3 & Hchar & Hret).
  apply ret_ok_inv in Hret as [-> _].
  unfold _random_char in Hchar.
  apply bind_ok_inv in Hchar as (b & s4 & _ & Hchar).
  apply bind_ok_inv in Hchar as (c & s5 & Hc & Hret).
  apply ret_ok_inv in Hret as [-> _].
  apply random_choice_ok_elem in Hc.
  unfold inserted_piece. destruct b; eauto.
Qed.

Lemma substitute_ok (fuel : nat) (cs text : list ascii) (p : pynum)
    (s : rng) (out : list ascii) (s' : rng) :
  substitute_random_chars fuel cs text p s = (Ok out, s') ->
  Forall2 (substituted cs) text out.
Proof.
  unfold substitute_random_chars. intros Hrun.
  apply bind_ok_inv in Hrun as (pieces & s1 & Hmap & Hret).
  apply ret_ok_inv in Hret as [-> _].
  apply (substituted_concat cs).
  eapply mapM_ok_inv; [|exact Hmap].
  intros char s0 piece s2 Hstep.
  apply bind_ok_inv in Hstep as (b & s3 & _ & Hstep).
  destruct b.
  - apply bind_ok_inv in Hstep as (c & s4 & Hc & Hret).
    apply ret_ok_inv in Hret as [-> _].
    exists c. split; [reflexivity|]. right.
    eapply choose_another_character_spec, Hc.
  - apply ret_ok_inv in Hstep as [-> _].
    exists char. split; [reflexivity|]. left. reflexivity.
Qed.

Lemma delete_ok (text : list ascii) (p : pynum) (s : rng)
    (out : list ascii) (s' : rng) :
  delete_random_chars text p s = (Ok out, s') -> sublist out text.
Proof.
  unfold delete_random_chars. intros Hrun.
  apply bind_ok_inv in Hrun as (pieces & s1 & Hmap & Hret).
  apply ret_ok_inv in Hret as [-> _].
  assert (Hall : Forall2 (fun char piece => piece = [] \/ piece = [char])
                   text pieces).
  { eapply mapM_ok_inv; [|exact Hmap].
    intros char s0 piece s2 Hstep.
    apply bind_ok_inv in Hstep as (b & s3 & _ & Hret).
    apply ret_ok_inv in Hret as [-> _]. destruct b; auto. }
  clear Hmap.
  induction Hall as [|char piece text' pieces' [->| ->] _ IH]; simpl.
  - constructor.
  - apply sublist_cons, IH.
  - apply sublist_skip, IH.
Qed.

Lemma swap_ok (text : list ascii) (p : pynum) (s : rng)
    (out : list ascii) (s' : rng) :
  consecutive_swap_random_chars text p s = (Ok out, s') ->
  disjoint_adjacent_swaps text out.
Proof.
  unfold consecutive_swap_random_chars. intros Hrun.
  apply bind_ok_inv in Hrun as (q & s1 & _ & Hrun).
  apply bind_ok_inv in Hrun as (r & s2 & Hloop & Hret).
  apply ret_ok_inv in Hret as [-> _].
  rewrite zip_longest_adjacent in Hloop.
  destruct (swap_loop_spec q text [] s1) as (r' & s3 & out & Hrun & Hcat & Hd).
  rewrite Hloop in Hrun. injection Hrun as <- <-.
  simpl in Hcat. rewrite Hcat. exact Hd.
Qed.

(** Membership and length through the pieces of [insert]. *)
Lemma inserted_pieces_elem (cs text : list ascii)
    (pieces : list (list ascii)) (c : ascii) :
  Forall2 (inserted_piece cs) text pieces ->
  c ∈ concat pieces -> c ∈ text \/ c ∈ cs.
Proof.
  induction 1 as [|char piece text' pieces' Hp _ IH]; simpl.
  - intros Hc. apply elem_of_nil in Hc. contradiction.
  - rewrite elem_of_app, elem_of_cons. intros [Hc|Hc].
    + destruct Hp as [->|(r & -> & Hr)].
      * apply list_elem_of_singleton in Hc. auto.
      * apply elem_of_cons in Hc as [->|Hc]; [auto|].
        apply list_elem_of_singleton in Hc as ->. auto.
    + destruct (IH Hc); auto.
Qed.

Lemma substituted_elem (cs text out : list ascii) (c : ascii) :
  Forall2 (substituted cs) text out -> c ∈ out -> c ∈ text \/ c ∈ cs.
Proof.
  induction 1 as [|char o text' out' Ho _ IH].
  - intros Hc. apply elem_of_nil in Hc. contradiction.
  - rewrite !elem_of_cons. intros [->|Hc].
    + destruct Ho as [->|[Ho _]]; auto.
    + destruct (IH Hc); auto.
Qed.

Lemma noised_token_refl (cs w : list ascii) : noised_token cs [] w w.
Proof. unfold noised_token. repeat split; auto. Qed.

(** One executor, as the first step of a pass. *)
Lemma noised_token_step (fuel : nat) (self : CharNoiseAugmenter)
    (action : string) (f : list ascii -> pynum -> M (list ascii))
    (w : list ascii) (p : pynum) (s : rng) (out : list ascii) (s' : rng) :
  action_function fuel self action = Ok f ->
  f w p s = (Ok out, s') ->
  noised_token self.(character_set) [action] w out.
Proof.
  unfold action_function.
  destruct (String.eqb_spec action "insert") as [->|Hi].
  { intros [= <-] Hrun. apply insert_ok in Hrun as (pieces & Hp & ->).
    pose proof (inserted_pieces_concat _ _ _ Hp) as [Hlen _].
    unfold noised_token. split; [|split; [|split; [|split]]].
    - intros c. apply inserted_pieces_elem, Hp.
    - intros H. exfalso. apply H, list_elem_of_here.
    - intros _. lia.
    - intros H. exfalso. apply H, list_elem_of_here.
    - intros H. exfalso. apply H, list_elem_of_here. }
  destruct (String.eqb_spec action "swap") as [->|Hs].
  { intros [= <-] Hrun. apply swap_ok in Hrun.
    pose proof (das_length _ _ Hrun) as Hlen.
    pose proof (das_Permutation _ _ Hrun) as Hperm.
    unfold noised_token. split; [|split; [|split; [|split]]].
    - intros c Hc. left. rewrite <- Hperm. exact Hc.
    - intros _. lia.
    - intros _. lia.
    - intros _ _. apply Permutation_submseteq, Hperm.
    - intros _ _ _. exact Hperm. }
  destruct (String.eqb_spec action "substitute") as [->|Hu].
  { intros [= <-] Hrun. apply substitute_ok in Hrun.
    pose proof (Forall2_length _ _ _ Hrun) as Hlen.
    unfold noised_token. split; [|split; [|split; [|split]]].
    - intros c. apply substituted_elem, Hrun.
    - intros _. lia.
    - intros _. lia.
    - intros _ H. exfalso. apply H, list_elem_of_here.
    - intros _ H. exfalso. apply H, list_elem_of_here. }
  destruct (String.eqb_spec action "delete") as [->|Hd]; [|discriminate].
  intros [= <-] Hrun. apply delete_ok in Hrun.
  pose proof (sublist_length _ _ Hrun) as Hlen.
  unfold noised_token. split; [|split; [|split; [|split]]].
  - intros c Hc. left. eapply elem_of_submseteq;
      [exact Hc|apply sublist_submseteq, Hrun].
  - intros _. lia.
  - intros H. exfalso. apply H, list_elem_of_here.
  - intros _ _. apply sublist_submseteq, Hrun.
  - intros _ _ H. exfalso. apply H, list_elem_of_here.
Qed.

(** A first step followed by a pass is a pass. *)
Lemma noised_token_cons (cs : list ascii) (action : string)
    (todo : list string) (w w1 w2 : list ascii) :
  noised_token cs [action] w w1 -> noised_token cs todo w1 w2 ->
  noised_token cs (action :: todo) w w2.
Proof.
  intros (Hc1 & Hi1 & Hd1 & Hm1 & Hp1) (Hc2 & Hi2 & Hd2 & Hm2 & Hp2).
  assert (Hone : forall a : string, a ∉ action :: todo -> a ∉ [action])
    by (intros a Ha Hin; apply Ha; apply list_elem_of_singleton in Hin as ->;
        apply list_elem_of_here).
  assert (Hrest : forall a : string, a ∉ action :: todo -> a ∉ todo)
    by (intros a Ha Hin; apply Ha, list_elem_of_further, Hin).
  unfold noised_token. split; [|split; [|split; [|split]]].
  - intros c Hc. destruct (Hc2 c Hc) as [H|H]; auto.
  - intros H. specialize (Hi1 (Hone _ H)). specialize (Hi2 (Hrest _ H)). lia.
  - intros H. specialize (Hd1 (Hone _ H)). specialize (Hd2 (Hrest _ H)). lia.
  - intros Hi Hs. etransitivity; [apply Hm2|apply Hm1]; auto.
  - intros Hi Hs Hd. etransitivity; [apply Hp2|apply Hp1]; auto.
Qed.

(** The loop over the actions keeps the kind of the text and the number of
    its tokens, and makes a pass of every token. *)
Lemma run_actions_noised (fuel : nat) (self : CharNoiseAugmenter)
    (todo : list string) (p : pynum) (t : text) (s : rng) (t' : text)
    (s' : rng) :
  run_actions fuel self todo p t s = (Ok t', s') ->
  same_shape t t' /\
  Forall2 (noised_token self.(character_set) todo)
          (tokens_of t) (tokens_of t').
Proof.
  revert t s. induction todo as [|action todo IH]; intros t s Hrun.
  - apply ret_ok_inv in Hrun as [-> _]. split.
    + destruct t; simpl; auto.
    + apply Forall_Forall2_diag, Forall_forall. intros w _.
      apply noised_token_refl.
  - simpl in Hrun.
    apply bind_ok_inv in Hrun as (f & s1 & Hf & Hrun).
    unfold lift in Hf. injection Hf as Hf <-.
    apply bind_ok_inv in Hrun as (t1 & s2 & Hstep & Hrun).
    apply IH in Hrun as [Hshape Hrest].
    destruct t as [w|ws].
    + apply bind_ok_inv in Hstep as (w1 & s3 & Hw & Hret).
      apply ret_ok_inv in Hret as [-> _].
      destruct t' as [w2|ws2]; [|contradiction]. split; [exact I|].
      simpl in *. apply Forall2_cons_1 in Hrest as [Hrest _].
      constructor; [|constructor].
      eapply noised_token_cons; [|exact Hrest].
      eapply (noised_token_step fuel self action f); [exact Hf|exact Hw].
    + apply bind_ok_inv in Hstep as (ws1 & s3 & Hmap & Hret).
      apply ret_ok_inv in Hret as [-> _].
      assert (Hfirst : Forall2 (noised_token self.(character_set) [action])
                         ws ws1).
      { eapply mapM_ok_inv; [|exact Hmap].
        intros w s0 w1 s4 Hw.
        eapply (noised_token_step fuel self action f); [exact Hf|exact Hw]. }
      destruct t' as [w2|ws2]; [contradiction|]. simpl in *. split.
      * rewrite Hshape. symmetry. eapply Forall2_length, Hfirst.
      * clear Hmap Hshape IH. revert ws2 Hrest.
        induction Hfirst as [|w w1 ws' ws1' Hw _ IHf]; intros ws2 Hrest.
        -- inversion Hrest. constructor.
        -- inversion Hrest as [|? w2 ? ws2' Hw2 Hrest']; subst.
           constructor; [|apply IHf, Hrest'].
           eapply noised_token_cons; eauto.
Qed.

Lemma add_noise_noised (fuel : nat) (self : CharNoiseAugmenter) (t : text)
    (t' : text) (self' : CharNoiseAugmenter) :
  add_noise fuel self t = (Ok t', self') ->
  same_shape t t' /\
  Forall2 (noised_token self.(character_set) self.(actions))
          (tokens_of t) (tokens_of t').
Proof.
  unfold add_noise.
  destruct (add_noise_body fuel self t (random self)) as [r s1] eqn:Hbody.
  intros [= -> _]. unfold add_noise_body in Hbody.
  apply bind_ok_inv in Hbody as (p & s2 & _ & Hbody).
  apply bind_ok_inv in Hbody as (q & s3 & _ & Hbody).
  eapply run_actions_noised, Hbody.
Qed.

End ResultFacts.

(** ** noise.py: what [add_noise] keeps of its input *)
Section AddNoiseKeeps.
Context {NR : NumericRuntime} {RS : RandomSource}.
Import NoiseUnbiasing Noise Spec.

(** X1. Whatever [add_noise] returns has the kind of its argument: a string
    for a string, and for a list of tokens a list of as many tokens. *)
Theorem add_noise_keeps_shape (fuel : nat) (self : CharNoiseAugmenter)
    (t t' : text) (self' : CharNoiseAugmenter) :
  add_noise fuel self t = (Ok t', self') ->
  match t with
  | Str _ => exists s', t' = Str s'
  | Tokens ws => exists ws', t' = Tokens ws' /\ length ws' = length ws
  end.
Proof.
  intros Hrun. apply add_noise_noised in Hrun as [Hshape _].
  destruct t as [w|ws], t' as [w'|ws']; simpl in Hshape;
    try contradiction; eauto.
Qed.

(** X2. Every character of a returned token is a character of the token it
    was made from or a symbol of [character_set]. *)
Theorem add_noise_characters (fuel : nat) (self : CharNoiseAugmenter)
    (t t' : text) (self' : CharNoiseAugmenter) :
  add_noise fuel self t = (Ok t', self') ->
  Forall2 (fun w w' => forall c, c ∈ w' -> c ∈ w \/ c ∈ self.(character_set))
          (tokens_of t) (tokens_of t').
Proof.
  intros Hrun. apply add_noise_noised in Hrun as [_ Hall].
  eapply Forall2_impl; [exact Hall|]. intros w w' [Hc _]. exact Hc.
Qed.

(** X3. Without [insert] among the actions no token gets longer, without
    [delete] no token gets shorter, and without both every token keeps its
    length. *)
Theorem add_noise_length_bounds (fuel : nat) (self : CharNoiseAugmenter)
    (t t' : text) (self' : CharNoiseAugmenter) :
  add_noise fuel self t = (Ok t', self') ->
  Forall2 (fun w w' =>
             ("insert"%string ∉ self.(actions) -> length w' <= length w) /\
             ("delete"%string ∉ self.(actions) -> length w <= length w') /\
             ("insert"%string ∉ self.(actions) ->
              "delete"%string ∉ self.(actions) -> length w' = length w))
          (tokens_of t) (tokens_of t').
Proof.
  intros Hrun. apply add_noise_noised in Hrun as [_ Hall].
  eapply Forall2_impl; [exact Hall|].
  intros w w' (_ & Hi & Hd & _). split; [exact Hi|]. split; [exact Hd|].
  intros Hni Hnd. specialize (Hi Hni). specialize (Hd Hnd). lia.
Qed.

(** X4. With neither [insert] nor [substitute] among the actions no
    character is invented: every returned token is a sub-multiset of the
    token it was made from, and a permutation of it when [delete] is not
    among the actions either. *)
Theorem add_noise_no_new_character (fuel : nat) (self : CharNoiseAugmenter)
    (t t' : text) (self' : CharNoiseAugmenter) :
  "insert"%string ∉ self.(actions) ->
  "substitute"%string ∉ self.(actions) ->
  add_noise fuel self t = (Ok t', self') ->
  Forall2 (fun w w' =>
             w' ⊆+ w /\ ("delete"%string ∉ self.(actions) -> w' ≡ₚ w))
          (tokens_of t) (tokens_of t').
Proof.
  intros Hni Hns Hrun. apply add_noise_noised in Hrun as [_ Hall].
  eapply Forall2_impl; [exact Hall|].
  intros w w' (_ & _ & _ & Hm & Hp). auto.
Qed.

End AddNoiseKeeps.

Section AddNoiseKeepsOnSample.
Import Sample.

Lemma add_noise_keeps_shape_witness :
  exists t' self',
    Noise.add_noise 5
      (Sample.augmenter 0.5 ["insert"; "delete"]%string ["x"; "y"]%char 0)
      (Noise.Tokens [list_ascii_of_string "ab"; list_ascii_of_string "cd"])
      = (Ok t', self') /\
    exists ws', t' = Noise.Tokens ws' /\ length ws' = 2.
Proof.
  eexists _, _. split; [vm_compute; reflexivity|].
  eapply (add_noise_keeps_shape 5
           (Sample.augmenter 0.5 ["insert"; "delete"]%string
              ["x"; "y"]%char 0)
           (Noise.Tokens [list_ascii_of_string "ab";
                          list_ascii_of_string "cd"])).
  vm_compute. reflexivity.
Defined.

Lemma add_noise_characters_witness :
  exists t' self',
    Noise.add_noise 5
      (Sample.augmenter 0.5 ["insert"; "substitute"]%string
         ["x"; "y"]%char 0)
      (Noise.Str (list_ascii_of_string "hello")) = (Ok t', self') /\
    Forall2 (fun w w' => forall c, c ∈ w' ->
               c ∈ w \/ c ∈ ["x"; "y"]%char)
      [list_ascii_of_string "hello"] (Spec.tokens_of t').
Proof.
  eexists _, _. split; [vm_compute; reflexivity|].
  eapply (add_noise_characters 5
           (Sample.augmenter 0.5 ["insert"; "substitute"]%string
              ["x"; "y"]%char 0)
           (Noise.Str (list_ascii_of_string "hello"))).
  vm_compute. reflexivity.
Defined.

Lemma add_noise_length_bounds_witness :
  exists t' self',
    Noise.add_noise 5
      (Sample.augmenter 0.5 ["swap"; "substitute"]%string ["x"; "y"]%char 0)
      (Noise.Str (list_ascii_of_string "hello")) = (Ok t', self') /\
    Forall2 (fun w w' =>
               ("insert"%string ∉ ["swap"; "substitute"]%string ->
                length w' <= length w) /\
               ("delete"%string ∉ ["swap"; "substitute"]%string ->
                length w <= length w') /\
               ("insert"%string ∉ ["swap"; "substitute"]%string ->
                "delete"%string ∉ ["swap"; "substitute"]%string ->
                length w' = length w))
      [list_ascii_of_string "hello"] (Spec.tokens_of t').
Proof.
  eexists _, _. split; [vm_compute; reflexivity|].
  eapply (add_noise_length_bounds 5
           (Sample.augmenter 0.5 ["swap"; "substitute"]%string
              ["x"; "y"]%char 0)
           (Noise.Str (list_ascii_of_string "hello"))).
  vm_compute. reflexivity.
Defined.

Lemma add_noise_no_new_character_witness :
  ("insert"%string ∉ ["swap"; "delete"]%string) /\
  ("substitute"%string ∉ ["swap"; "delete"]%string) /\
  exists t' self',
    Noise.add_noise 5
      (Sample.augmenter 0.5 ["swap"; "delete"]%string ["x"; "y"]%char 0)
      (Noise.Str (list_ascii_of_string "hello")) = (Ok t', self') /\
    Forall2 (fun w w' =>
               w' ⊆+ w /\
               ("delete"%string ∉ ["swap"; "delete"]%string -> w' ≡ₚ w))
      [list_ascii_of_string "hello"] (Spec.tokens_of t').
Proof.
  assert (Hi : "insert"%string ∉ ["swap"; "delete"]%string)
    by (apply (bool_decide_unpack _); vm_compute; exact I).
  assert (Hs : "substitute"%string ∉ ["swap"; "delete"]%string)
    by (apply (bool_decide_unpack _); vm_compute; exact I).
  split; [exact Hi|]. split; [exact Hs|].
  eexists _, _. split; [vm_compute; reflexivity|].
  eapply (add_noise_no_new_character 5
           (Sample.augmenter 0.5 ["swap"; "delete"]%string ["x"; "y"]%char 0)
           (Noise.Str (list_ascii_of_string "hello")) _ _ Hi Hs).
  vm_compute. reflexivity.
Defined.

End AddNoiseKeepsOnSample.

(** ** noise.py: what construction guarantees *)
Section ConstructedFacts.
Context {NR : NumericRuntime} {RS : RandomSource}.
Import NoiseUnbiasing Noise Spec.

Lemma dedup_actions_scan_from (seen l : list string) :
  snd <$> filter (fun ix : nat * string => ix.2 ∉ take ix.1 (seen ++ l))
                 (imap (fun i x => (length seen + i, x)) l)
  = dedup_seen seen l.
Proof.
  revert seen. induction l as [|x l IH]; intros seen; [reflexivity|].
  rewrite imap_cons, filter_cons. simpl.
  rewrite Nat.add_0_r, take_app_length.
  assert (Htail :
    snd <$> filter (fun ix : nat * string => ix.2 ∉ take ix.1 (seen ++ x :: l))
                   (imap ((fun i y => (length seen + i, y)) ∘ S) l)
    = dedup_seen (seen ++ [x]) l).
  { rewrite <- IH. rewrite <- (app_assoc seen [x] l). simpl.
    f_equal. f_equal. apply imap_ext. intros i y _. simpl.
    rewrite length_app. simpl. f_equal. lia. }
  destruct (decide (x ∉ seen)) as [Hnew|Hold].
  - rewrite bool_decide_eq_false_2 by exact Hnew. simpl. f_equal. exact Htail.
  - rewrite bool_decide_eq_true_2 by (destruct (decide (x ∈ seen)); tauto).
    simpl. exact Htail.
Qed.

Lemma dedup_actions_scan (acts : list string) :
  dedup_actions acts = dedup_seen [] acts.
Proof. exact (dedup_actions_scan_from [] acts). Qed.

Lemma dedup_seen_filter (seen l : list string) :
  dedup_seen seen l = filter (fun a => a ∉ seen) (dedup_seen [] l).
Proof.
  revert seen. induction l as [|x l IH]; intros seen; [reflexivity|].
  simpl. rewrite (IH (seen ++ [x])), (IH [x]).
  rewrite filter_cons, list_filter_filter.
  assert (Hsame : filter (fun a => a ∉ seen ++ [x]) (dedup_seen [] l)
                  = filter (fun a => (a ∉ seen) /\ (a ∉ [x])) (dedup_seen [] l)).
  { apply list_filter_iff. intros a. apply not_elem_of_app. }
  rewrite Hsame. case_bool_decide; destruct (decide (x ∉ seen)); try tauto;
    reflexivity.
Qed.

Lemma dedup_seen_spec (seen l : list string) :
  NoDup (dedup_seen seen l) /\
  (forall a, a ∈ dedup_seen seen l <-> a ∈ l /\ (a ∉ seen)) /\
  sublist (dedup_seen seen l) l.
Proof.
  revert seen. induction l as [|x l IH]; intros seen.
  - simpl. split; [constructor|]. split; [|constructor].
    intros a. rewrite elem_of_nil. tauto.
  - destruct (IH (seen ++ [x])) as (Hnd & Hin & Hsub). simpl.
    assert (Hx : x ∉ dedup_seen (seen ++ [x]) l).
    { rewrite Hin, not_elem_of_app. intros [_ [_ H]].
      apply H, list_elem_of_here. }
    assert (Hmem : forall a, a ∈ dedup_seen (seen ++ [x]) l <->
                             a ∈ l /\ (a ∉ seen) /\ a <> x).
    { intros a. rewrite Hin, not_elem_of_app, list_elem_of_singleton.
      tauto. }
    case_bool_decide as Hseen; simpl.
    + split; [exact Hnd|]. split; [|apply sublist_cons, Hsub].
      intros a. rewrite Hmem, elem_of_cons. split.
      * tauto.
      * intros [[->|Ha] Hna]; [contradiction|].
        split; [exact Ha|]. split; [exact Hna|]. intros ->. contradiction.
    + split; [apply NoDup_cons; auto|].
      split; [|apply sublist_skip, Hsub].
      intros a. rewrite !elem_of_cons, Hmem. split.
      * intros [->|H]; tauto.
      * intros [[->|Ha] Hna]; [auto|].
        destruct (decide (a = x)) as [->|Hne]; auto.
Qed.

(** X5. The deduplication of the actions keeps the first occurrence of
    every name, in order: the head of the list stays at the head and is
    removed from the rest; the result has no duplicate, holds exactly the
    names of the list, and is a subsequence of it. *)
Theorem dedup_actions_first_occurrences (x : string) (acts : list string) :
  dedup_actions [] = [] /\
  dedup_actions (x :: acts) =
    x :: filter (fun a => a <> x) (dedup_actions acts) /\
  NoDup (dedup_actions acts) /\
  (forall a, a ∈ dedup_actions acts <-> a ∈ acts) /\
  sublist (dedup_actions acts) acts.
Proof.
  rewrite !dedup_actions_scan. split; [reflexivity|]. split.
  - simpl. f_equal. rewrite dedup_seen_filter.
    apply list_filter_iff. intros a. rewrite list_elem_of_singleton. tauto.
  - destruct (dedup_seen_spec [] acts) as (Hnd & Hin & Hsub).
    split; [exact Hnd|]. split; [|exact Hsub].
    intros a. rewrite Hin. split; [tauto|].
    intros Ha. split; [exact Ha|apply not_elem_of_nil].
Qed.

Lemma available_actions_NoDup : NoDup _AVAILABLE_ACTIONS.
Proof. apply (bool_decide_unpack _). vm_compute. exact I. Qed.

(** X6. An augmenter that [__init__] returned stores the alphabet and the
    noise level it was given, and the deduplicated actions; its actions are
    at most four, without duplicates, each one available; its noise level
    lies in [[0, 1]], and not above [MAX_SWAP_LEVEL] when [swap] is one of
    its actions. *)
Theorem init_returns_valid_augmenter (level : float) (acts : list string)
    (cs : list ascii) (seed : option Z) (entropy : Z)
    (self : CharNoiseAugmenter) :
  __init__ level acts cs seed entropy = Ok self ->
  self.(actions) = dedup_actions acts /\
  self.(character_set) = cs /\
  self.(noise_level) = level /\
  self.(random) = new_random seed entropy /\
  NoDup self.(actions) /\
  (forall a, a ∈ self.(actions) -> a ∈ _AVAILABLE_ACTIONS) /\
  length self.(actions) <= 4 /\
  in_unit_interval self.(noise_level) /\
  ("swap"%string ∈ self.(actions) ->
   (MAX_SWAP_LEVEL <? self.(noise_level))%float = false).
Proof.
  intros Hinit.
  destruct (init_outcome level acts cs seed entropy) as [[_ H]|[Hok H]];
    rewrite H in Hinit; [discriminate|].
  injection Hinit as <-. simpl.
  destruct (dedup_seen_spec [] acts) as (Hnd & Hin & _).
  rewrite <- dedup_actions_scan in Hnd, Hin.
  assert (Havail : forall a, a ∈ dedup_actions acts ->
                             a ∈ _AVAILABLE_ACTIONS).
  { intros a Ha. apply Hin in Ha as [Ha _].
    destruct (decide (a ∈ _AVAILABLE_ACTIONS)) as [|Hbad]; [assumption|].
    exfalso. apply Hok. left. eauto. }
  repeat split; try assumption.
  - change 4 with (length _AVAILABLE_ACTIONS).
    apply submseteq_length, NoDup_submseteq; assumption.
  - destruct (0 <=? level)%float eqn:H0; [reflexivity|].
    exfalso. apply Hok. right. left. intros [H1 _]. congruence.
  - destruct (level <=? 1)%float eqn:H1; [reflexivity|].
    exfalso. apply Hok. right. left. intros [_ H2]. congruence.
  - intros Hswap. destruct (MAX_SWAP_LEVEL <? level)%float eqn:Hm;
      [|reflexivity].
    exfalso. apply Hok. right. right. split; [exact Hm|].
    apply Hin in Hswap as [Hswap _]. exact Hswap.
Qed.

(** X7. The [match action] of [add_noise] finds an executor for each of the
    four available names and raises [ValueError] for every other name; for
    an augmenter that [__init__] returned it therefore never raises. *)
Theorem action_function_dispatch (fuel : nat) (self : CharNoiseAugmenter)
    (action : string) :
  (action ∈ _AVAILABLE_ACTIONS ->
   exists f, action_function fuel self action = Ok f) /\
  (action ∉ _AVAILABLE_ACTIONS ->
   action_function fuel self action = Raise ValueError) /\
  (forall level acts cs seed entropy,
     __init__ level acts cs seed entropy = Ok self ->
     action ∈ self.(actions) ->
     exists f, action_function fuel self action = Ok f).
Proof.
  assert (Hyes : action ∈ _AVAILABLE_ACTIONS ->
                 exists f, action_function fuel self action = Ok f).
  { unfold _AVAILABLE_ACTIONS. rewrite !elem_of_cons, elem_of_nil.
    intros [->|[->|[->|[->|[]]]]]; eexists; reflexivity. }
  split; [exact Hyes|]. split.
  - unfold _AVAILABLE_ACTIONS. rewrite !not_elem_of_cons.
    intros (Hi & Hs & Hu & Hd & _). unfold action_function.
    destruct (String.eqb_spec action "insert"); [contradiction|].
    destruct (String.eqb_spec action "swap"); [contradiction|].
    destruct (String.eqb_spec action "substitute"); [contradiction|].
    destruct (String.eqb_spec action "delete"); [contradiction|].
    reflexivity.
  - intros level acts cs seed entropy Hinit Hin. apply Hyes.
    destruct (init_outcome level acts cs seed entropy) as [[_ H]|[Hok H]];
      rewrite H in Hinit; [discriminate|].
    injection Hinit as <-. simpl in Hin.
    apply (proj1 (elem_of_dedup_actions _ _)) in Hin.
    destruct (decide (action ∈ _AVAILABLE_ACTIONS)) as [|Hbad]; [assumption|].
    exfalso. apply Hok. left. eauto.
Qed.

End ConstructedFacts.

Lemma init_returns_valid_augmenter_witness :
  Noise.__init__ (RS := Sample.counter) 0.5
    ["swap"; "insert"; "swap"]%string ["x"; "y"]%char (Some 7%Z) 0%Z
    = Ok (Sample.augmenter 0.5 ["swap"; "insert"]%string ["x"; "y"]%char 7) /\
  length ["swap"; "insert"]%string <= 4 /\
  NoDup ["swap"; "insert"]%string.
Proof.
  assert (H : Noise.__init__ (RS := Sample.counter) 0.5
                ["swap"; "insert"; "swap"]%string ["x"; "y"]%char
                (Some 7%Z) 0%Z
              = Ok (Sample.augmenter 0.5 ["swap"; "insert"]%string
                      ["x"; "y"]%char 7))
    by (vm_compute; reflexivity).
  split; [exact H|].
  pose proof (init_returns_valid_augmenter (RS := Sample.counter)
                _ _ _ _ _ _ H) as (_ & _ & _ & _ & Hnd & _ & Hlen & _).
  split; [exact Hlen|exact Hnd].
Defined.

(** ** noise.py: the draws of the executors *)
Section DrawFacts.
Context {NR : NumericRuntime} {RS : RandomSource}.
Import NoiseUnbiasing Noise Spec.

Lemma mapM_scan {A B} (f : A -> M B) (g : A -> rng -> B)
    (step : rng -> rng) (l : list A) (s : rng) :
  (forall x s0, f x s0 = (Ok (g x s0), step s0)) ->
  mapM f l s = (Ok (fst (scan g step l s)), snd (scan g step l s)).
Proof.
  intros Hf. revert s. induction l as [|x l IH]; intros s; [reflexivity|].
  simpl. unfold bind at 1. rewrite Hf. unfold bind at 1. rewrite IH.
  destruct (scan g step l (step s)) as [ys s']. reflexivity.
Qed.

Lemma scan_state_randoms {A B} (g : A -> rng -> B) (l : list A) (s : rng) :
  snd (scan g (fun s0 => snd (rng_random s0)) l s)
  = after_randoms (length l) s.
Proof.
  revert s. induction l as [|x l IH]; intros s; [reflexivity|].
  simpl. specialize (IH (snd (rng_random s))).
  destruct (scan g _ l (snd (rng_random s))) as [ys s']. exact IH.
Qed.

Lemma scan_state_insert {A B} (g : A -> rng -> B) (k : nat) (l : list A)
    (s : rng) :
  snd (scan g (fun s0 => snd (rng_randbelow k (snd (rng_random s0)))) l s)
  = after_insert k (length l) s.
Proof.
  revert s. induction l as [|x l IH]; intros s; [reflexivity|].
  simpl. specialize (IH (snd (rng_randbelow k (snd (rng_random s))))).
  destruct (scan g _ l _) as [ys s']. exact IH.
Qed.

Lemma delete_run (text : list ascii) (p : float) (s : rng) :
  delete_random_chars text (PyFloat p) s =
    (Ok (concat (fst (scan (deleted_piece p)
                        (fun s0 => snd (rng_random s0)) text s))),
     after_randoms (length text) s).
Proof.
  unfold delete_random_chars, bind at 1.
  rewrite (mapM_scan _ (deleted_piece p) (fun s0 => snd (rng_random s0))).
  - rewrite scan_state_randoms. reflexivity.
  - intros char s0. unfold bind. rewrite random_success_float.
    reflexivity.
Qed.

Lemma insert_run (cs text : list ascii) (p : float) (s : rng) :
  randbelow_in_range -> cs <> [] ->
  insert_random_chars cs text (PyFloat p) s =
    (Ok (concat (fst (scan (inserted_in_state cs p)
                        (fun s0 => snd (rng_randbelow (length cs)
                                          (snd (rng_random s0))))
                        text s))),
     after_insert (length cs) (length text) s).
Proof.
  intros Hrange Hcs. unfold insert_random_chars, bind at 1.
  rewrite (mapM_scan _ (inserted_in_state cs p)
             (fun s0 => snd (rng_randbelow (length cs)
                               (snd (rng_random s0))))).
  - rewrite scan_state_insert. reflexivity.
  - intros char s0. unfold bind at 1, _random_char, bind at 1.
    rewrite random_success_float. unfold bind at 1.
    pose proof (random_choice_spec cs (snd (rng_random s0)) Hrange) as Hc.
    unfold inserted_in_state.
    destruct (random_choice cs (snd (rng_random s0))) as [[c| |] s1].
    + destruct Hc as [-> ->]. unfold ret.
      destruct (_ <? _)%float; reflexivity.
    + destruct Hc as (_ & Hnil & _). contradiction.
    + contradiction.
Qed.

(** X8. For every float probability [delete_random_chars] returns a
    subsequence of the text, and it calls [random()] exactly once for each
    character, whether the character is deleted or not. *)
Theorem delete_random_chars_total (text : list ascii) (p : float) (s : rng) :
  exists out,
    delete_random_chars text (PyFloat p) s
      = (Ok out, after_randoms (length text) s) /\
    sublist out text.
Proof.
  rewrite delete_run. eexists. split; [reflexivity|].
  eapply delete_ok. apply delete_run.
Qed.

(** X9. With an alphabet that is not empty, [insert_random_chars] makes one
    [random()] call and one [choice] for every character of the text,
    whether a character is inserted or not: the state it leaves the
    generator in depends on the length of the text and of the alphabet only,
    not on the probability. *)
Theorem insert_random_chars_draws (cs text : list ascii) (p : float)
    (s : rng) :
  randbelow_in_range -> cs <> [] ->
  exists out,
    insert_random_chars cs text (PyFloat p) s
      = (Ok out, after_insert (length cs) (length text) s).
Proof.
  intros Hrange Hcs. rewrite (insert_run cs text p s Hrange Hcs).
  eexists. reflexivity.
Qed.

(** X10. [_random_char] returns the empty string or one symbol of the
    alphabet. With an empty alphabet it raises [IndexError] whatever the
    probability, after its [random()] call. *)
Theorem random_char_at_most_one (p : float) (cs : list ascii) (s : rng) :
  randbelow_in_range ->
  match _random_char (PyFloat p) cs s with
  | (Ok r, _) => cs <> [] /\ length r <= 1 /\ forall c, c ∈ r -> c ∈ cs
  | (Raise e, s') => e = IndexError /\ cs = [] /\ s' = snd (rng_random s)
  | (OutOfFuel, _) => False
  end.
Proof.
  intros Hrange. unfold _random_char, bind at 1.
  rewrite random_success_float. unfold bind, ret.
  pose proof (random_choice_spec cs (snd (rng_random s)) Hrange) as Hc.
  destruct (random_choice cs (snd (rng_random s))) as [[c| |] s']; try tauto.
  destruct Hc as [Hc _]. apply list_elem_of_lookup_2 in Hc.
  split; [intros ->; apply elem_of_nil in Hc; exact Hc|].
  destruct (fst (rng_random s) <? p)%float; simpl.
  - split; [lia|]. intros d Hd. apply list_elem_of_singleton in Hd as ->.
    exact Hc.
  - split; [lia|]. intros d Hd. apply elem_of_nil in Hd. contradiction.
Qed.

End DrawFacts.

Lemma insert_random_chars_draws_witness :
  Spec.randbelow_in_range (RS := Sample.counter) /\
  ["x"; "y"]%char <> [] /\
  exists out,
    Noise.insert_random_chars (RS := Sample.counter) ["x"; "y"]%char
      (list_ascii_of_string "hello") (PyFloat 0.5) 0
    = (Ok out, Spec.after_insert (RS := Sample.counter) 2 5 0).
Proof.
  split; [exact counter_in_range|].
  split; [discriminate|].
  exact (insert_random_chars_draws (RS := Sample.counter) ["x"; "y"]%char
           (list_ascii_of_string "hello") 0.5 0 counter_in_range
           ltac:(discriminate)).
Defined.

Lemma random_char_at_most_one_witness :
  Spec.randbelow_in_range (RS := Sample.counter) /\
  match Noise._random_char (RS := Sample.counter) (PyFloat 0.5)
          ["x"; "y"]%char 0 with
  | (Ok r, _) =>
      ["x"; "y"]%char <> [] /\ length r <= 1 /\
      forall c, c ∈ r -> c ∈ ["x"; "y"]%char
  | (Raise e, s') =>
      e = IndexError /\ ["x"; "y"]%char = [] /\
      s' = snd (rng_random (RandomSource := Sample.counter) 0)
  | (OutOfFuel, _) => False
  end.
Proof.
  split; [exact counter_in_range|].
  exact (random_char_at_most_one (RS := Sample.counter) 0.5
           ["x"; "y"]%char 0 counter_in_range).
Defined.

(** ** noise.py: the executors at the ends of the probability range *)
Section EdgeFacts.
Context {NR : NumericRuntime} {RS : RandomSource}.
Import NoiseUnbiasing Noise Spec.

Lemma draw_fails_at_zero (s : rng) :
  random_in_unit -> (fst (rng_random s) <? 0)%float = false.
Proof. intros Hunit. apply float_leb_ltb_false, Hunit. Qed.

Lemma draw_succeeds_from_one (p : float) (s : rng) :
  random_in_unit -> (1 <=? p)%float = true ->
  (fst (rng_random s) <? p)%float = true.
Proof.
  intros Hunit Hp. eapply float_ltb_leb_trans; [apply Hunit|exact Hp].
Qed.

Lemma scan_ext {A B} (g g' : A -> rng -> B) (step : rng -> rng)
    (l : list A) (s : rng) :
  (forall x s0, g x s0 = g' x s0) -> scan g step l s = scan g' step l s.
Proof.
  intros Hg. revert s. induction l as [|x l IH]; intros s; [reflexivity|].
  simpl. rewrite IH, Hg. reflexivity.
Qed.

Lemma scan_singletons {A} (step : rng -> rng) (l : list A) (s : rng) :
  concat (fst (scan (fun c _ => [c]) step l s)) = l.
Proof.
  revert s. induction l as [|x l IH]; intros s; [reflexivity|].
  simpl. specialize (IH (step s)).
  destruct (scan _ step l (step s)) as [ys s']. simpl in *. congruence.
Qed.

Lemma scan_lengths {A B} (g : A -> rng -> list B) (step : rng -> rng)
    (k : nat) (l : list A) (s : rng) :
  (forall x s0, length (g x s0) = k) ->
  length (concat (fst (scan g step l s))) = k * length l.
Proof.
  intros Hg. revert s. induction l as [|x l IH]; intros s; simpl; [lia|].
  specialize (IH (step s)).
  destruct (scan g step l (step s)) as [ys s']. simpl in *.
  rewrite length_app, Hg, IH. lia.
Qed.

Lemma concat_chars (text : list ascii) : concat (chars text) = text.
Proof. induction text as [|c t IH]; simpl; congruence. Qed.

Lemma delete_keeps (text : list ascii) (p : float) (s : rng) :
  (forall s0, (fst (rng_random s0) <? p)%float = false) ->
  delete_random_chars text (PyFloat p) s
    = (Ok text, after_randoms (length text) s).
Proof.
  intros Hno. rewrite delete_run.
  rewrite (scan_ext _ (fun c _ => [c]))
    by (intros c s0; unfold deleted_piece; rewrite Hno; reflexivity).
  rewrite scan_singletons. reflexivity.
Qed.

Lemma insert_keeps (cs text : list ascii) (p : float) (s : rng) :
  randbelow_in_range -> cs <> [] ->
  (forall s0, (fst (rng_random s0) <? p)%float = false) ->
  insert_random_chars cs text (PyFloat p) s
    = (Ok text, after_insert (length cs) (length text) s).
Proof.
  intros Hrange Hcs Hno. rewrite (insert_run cs text p s Hrange Hcs).
  rewrite (scan_ext _ (fun c _ => [c])).
  - rewrite scan_singletons. reflexivity.
  - intros c s0. unfold inserted_in_state. rewrite Hno.
    destruct (cs !! _); reflexivity.
Qed.

Lemma substitute_keeps (fuel : nat) (cs text : list ascii) (p : float)
    (s : rng) :
  (forall s0, (fst (rng_random s0) <? p)%float = false) ->
  substitute_random_chars fuel cs text (PyFloat p) s
    = (Ok text, after_randoms (length text) s).
Proof.
  intros Hno. unfold substitute_random_chars, bind at 1.
  rewrite (mapM_scan _ (fun c _ => [c]) (fun s0 => snd (rng_random s0))).
  - rewrite scan_state_randoms, scan_singletons. reflexivity.
  - intros char s0. unfold bind. rewrite random_success_float, Hno.
    reflexivity.
Qed.

Lemma swap_loop_keeps (q : float) (text : list ascii) :
  (forall s0, (fst (rng_random s0) <? q)%float = false) ->
  forall (result : list (list ascii)) (s : rng),
    swap_loop (PyFloat q) (adjacent_pairs text) result false s
      = (Ok (result ++ chars text), after_randoms (length text) s).
Proof.
  intros Hno. induction text as [|c t IH]; intros result s.
  - simpl. rewrite app_nil_r. reflexivity.
  - change (adjacent_pairs (c :: t))
      with (([c], match t with [] => [] | d :: _ => [d] end)
              :: adjacent_pairs t).
    cbn [swap_loop]. unfold bind. rewrite random_success_float, Hno.
    rewrite IH. simpl. rewrite <- app_assoc. reflexivity.
Qed.

Lemma unbias_swap_zero_target (N : nat) :
  unbias_swap (PyFloat 0) N = Ok 0%float.
Proof.
  unfold unbias_swap. simpl.
  replace (MAX_SWAP_LEVEL <? 0)%float with false by (vm_compute; reflexivity).
  destruct (N =? 0)%nat; reflexivity.
Qed.

Lemma swap_keeps (text : list ascii) (s : rng) :
  random_in_unit ->
  consecutive_swap_random_chars text (PyFloat 0) s
    = (Ok text, after_randoms (length text) s).
Proof.
  intros Hunit. unfold consecutive_swap_random_chars, bind at 1, lift.
  rewrite unbias_swap_zero_target, zip_longest_adjacent. unfold bind.
  rewrite swap_loop_keeps by (intros s0; apply draw_fails_at_zero, Hunit).
  simpl. rewrite concat_chars. reflexivity.
Qed.

(** X11. With probability 0 every executor returns the text unchanged:
    [substitute], [delete] and [swap] for every alphabet, [insert] as soon
    as the alphabet is not empty (it draws a character even when it inserts
    none). *)
Theorem executors_at_probability_zero (fuel : nat) (cs text : list ascii)
    (s : rng) :
  random_in_unit -> randbelow_in_range ->
  (cs <> [] -> fst (insert_random_chars cs text (PyFloat 0) s) = Ok text) /\
  fst (substitute_random_chars fuel cs text (PyFloat 0) s) = Ok text /\
  fst (delete_random_chars text (PyFloat 0) s) = Ok text /\
  fst (consecutive_swap_random_chars text (PyFloat 0) s) = Ok text.
Proof.
  intros Hunit Hrange.
  assert (Hno : forall s0, (fst (rng_random s0) <? 0)%float = false)
    by (intros s0; apply draw_fails_at_zero, Hunit).
  split; [|split; [|split]].
  - intros Hcs. rewrite insert_keeps; auto.
  - rewrite substitute_keeps; auto.
  - rewrite delete_keeps; auto.
  - rewrite swap_keeps; auto.
Qed.

(** X12. With a probability of 1 or more, as the word-split correction can
    produce, [delete] returns the empty string and [insert] returns a text
    exactly twice as long as its input. *)
Theorem executors_at_probability_one (cs text : list ascii) (p : float)
    (s : rng) :
  random_in_unit -> randbelow_in_range -> (1 <=? p)%float = true ->
  fst (delete_random_chars text (PyFloat p) s) = Ok [] /\
  (cs <> [] ->
   exists out, fst (insert_random_chars cs text (PyFloat p) s) = Ok out /\
               length out = 2 * length text).
Proof.
  intros Hunit Hrange Hp.
  assert (Hyes : forall s0, (fst (rng_random s0) <? p)%float = true)
    by (intros s0; apply draw_succeeds_from_one; assumption).
  split.
  - rewrite delete_run. simpl. f_equal.
    rewrite (scan_ext _ (fun _ _ => []))
      by (intros c s0; unfold deleted_piece; rewrite Hyes; reflexivity).
    generalize s. induction text as [|c t IH]; intros s0; [reflexivity|].
    simpl. specialize (IH (snd (rng_random s0))).
    destruct (scan _ _ t _) as [ys s']. exact IH.
  - intros Hcs. rewrite (insert_run cs text p s Hrange Hcs).
    eexists. split; [reflexivity|].
    apply scan_lengths. intros c s0. unfold inserted_in_state.
    rewrite Hyes.
    assert (Hlt : fst (rng_randbelow (length cs) (snd (rng_random s0)))
                  < length cs).
    { apply Hrange. destruct cs; [contradiction|simpl; lia]. }
    destruct (lookup_lt_is_Some_2 cs _ Hlt) as [d ->]. reflexivity.
Qed.

End EdgeFacts.

Section EdgeFactsOnSample.
Import NoiseUnbiasing Noise Spec Sample.

Lemma counter_random_in_unit : random_in_unit (RS := Sample.counter).
Proof.
  intros s.
  change (fst (rng_random s)) with (float_of_nat (s mod 4) / 4)%float.
  pose proof (Nat.mod_upper_bound s 4 ltac:(lia)) as Hlt.
  destruct (s mod 4) as [|[|[|[|n]]]]; try lia;
    split; vm_compute; reflexivity.
Qed.

Lemma executors_at_probability_zero_witness :
  random_in_unit (RS := Sample.counter) /\
  randbelow_in_range (RS := Sample.counter) /\
  (["x"; "y"]%char <> [] ->
   fst (insert_random_chars ["x"; "y"]%char (list_ascii_of_string "hello")
          (PyFloat 0) 0) = Ok (list_ascii_of_string "hello")) /\
  fst (substitute_random_chars 3 ["x"; "y"]%char
         (list_ascii_of_string "hello") (PyFloat 0) 0)
    = Ok (list_ascii_of_string "hello") /\
  fst (delete_random_chars (list_ascii_of_string "hello") (PyFloat 0) 0)
    = Ok (list_ascii_of_string "hello") /\
  fst (consecutive_swap_random_chars (list_ascii_of_string "hello")
         (PyFloat 0) 0) = Ok (list_ascii_of_string "hello").
Proof.
  split; [exact counter_random_in_unit|].
  split; [exact counter_in_range|].
  exact (executors_at_probability_zero 3 ["x"; "y"]%char
           (list_ascii_of_string "hello") 0
           counter_random_in_unit counter_in_range).
Defined.

Lemma executors_at_probability_one_witness :
  random_in_unit (RS := Sample.counter) /\
  randbelow_in_range (RS := Sample.counter) /\
  (1 <=? 1.5)%float = true /\
  fst (delete_random_chars (list_ascii_of_string "hello") (PyFloat 1.5) 0)
    = Ok [] /\
  (["x"; "y"]%char <> [] ->
   exists out,
     fst (insert_random_chars ["x"; "y"]%char
            (list_ascii_of_string "hello") (PyFloat 1.5) 0) = Ok out /\
     length out = 2 * length (list_ascii_of_string "hello")).
Proof.
  split; [exact counter_random_in_unit|].
  split; [exact counter_in_range|].
  split; [reflexivity|].
  exact (executors_at_probability_one ["x"; "y"]%char
           (list_ascii_of_string "hello") 1.5 0
           counter_random_in_unit counter_in_range eq_refl).
Defined.

End EdgeFactsOnSample.

(** ** noise.py: zero noise, the rejection loop, short texts *)
Section MoreFacts.
Context {NR : NumericRuntime} {RS : RandomSource}.
Import NoiseUnbiasing Noise Spec.

Lemma unbias_several_action_zero (n : nat) :
  n <> 0 -> (forall y, libm_pow 1 y = 1%float) ->
  unbias_several_action 0 n = Ok (PyFloat 0).
Proof.
  intros Hn Hpow. unfold unbias_several_action.
  destruct (Nat.eqb_spec n 0) as [|_]; [contradiction|].
  change (1 - 0)%float with 1%float. unfold py_pow.
  change (1 <? 0)%float with false. change (1 =? 0)%float with false.
  simpl. rewrite Hpow.
  change (float_is_infinite 1) with false.
  rewrite andb_false_r. reflexivity.
Qed.

Lemma run_actions_zero (fuel : nat) (self : CharNoiseAugmenter)
    (todo : list string) (w : list ascii) (s : rng) :
  random_in_unit -> randbelow_in_range ->
  (forall a, a ∈ todo -> a ∈ _AVAILABLE_ACTIONS) ->
  ("insert"%string ∈ todo -> self.(character_set) <> []) ->
  exists s', run_actions fuel self todo (PyFloat 0) (Str w) s
             = (Ok (Str w), s').
Proof.
  intros Hunit Hrange.
  assert (Hno : forall s0, (fst (rng_random s0) <? 0)%float = false)
    by (intros s0; apply draw_fails_at_zero, Hunit).
  revert s. induction todo as [|action todo IH]; intros s Havail Hcs.
  - exists s. reflexivity.
  - assert (Ha : action ∈ _AVAILABLE_ACTIONS)
      by apply Havail, list_elem_of_here.
    assert (Hstep : exists f s1,
               action_function fuel self action = Ok f /\
               f w (PyFloat 0) s = (Ok w, s1)).
    { unfold _AVAILABLE_ACTIONS in Ha.
      rewrite !elem_of_cons, elem_of_nil in Ha.
      destruct Ha as [->|[->|[->|[->|[]]]]].
      - eexists _, _. split; [reflexivity|].
        apply insert_keeps; auto. apply Hcs, list_elem_of_here.
      - eexists _, _. split; [reflexivity|]. apply swap_keeps, Hunit.
      - eexists _, _. split; [reflexivity|]. apply substitute_keeps, Hno.
      - eexists _, _. split; [reflexivity|]. apply delete_keeps, Hno. }
    destruct Hstep as (f & s1 & Hf & Hrun).
    destruct (IH s1) as [s' Hrest].
    + intros a Hin. apply Havail, list_elem_of_further, Hin.
    + intros Hin. apply Hcs, list_elem_of_further, Hin.
    + exists s'. simpl. unfold bind at 1, lift. rewrite Hf.
      unfold bind at 1. unfold bind at 1. rewrite Hrun.
      unfold ret at 1. exact Hrest.
Qed.

(** X13. Zero noise is no noise: an augmenter with [noise_level = 0], at
    least one action, every action available, and an alphabet that is not
    empty if [insert] is among them, returns every string unchanged. *)
Theorem add_noise_zero_level (fuel : nat) (self : CharNoiseAugmenter)
    (w : list ascii) :
  random_in_unit -> randbelow_in_range ->
  (forall y, libm_pow 1 y = 1%float) ->
  self.(noise_level) = 0%float ->
  self.(actions) <> [] ->
  (forall a, a ∈ self.(actions) -> a ∈ _AVAILABLE_ACTIONS) ->
  ("insert"%string ∈ self.(actions) -> self.(character_set) <> []) ->
  fst (add_noise fuel self (Str w)) = Ok (Str w).
Proof.
  intros Hunit Hrange Hpow Hlevel Hacts Havail Hcs.
  unfold add_noise, add_noise_body. unfold bind at 1, lift at 1.
  unfold bind at 1, lift at 1. rewrite Hlevel.
  rewrite unbias_several_action_zero;
    [|destruct (actions self); [contradiction|discriminate]|exact Hpow].
  destruct (run_actions_zero fuel self (actions self) w (random self)
              Hunit Hrange Havail Hcs) as [s' ->].
  reflexivity.
Qed.

(** X14. When the alphabet holds no symbol other than the character to
    replace, the rejection loop of [_choose_another_character] never ends:
    every number of iterations is exhausted. *)
Theorem rejection_loop_without_other_symbol (fuel : nat) (cs : list ascii)
    (char : ascii) (s : rng) :
  randbelow_in_range -> cs <> [] -> (forall c, c ∈ cs -> c = char) ->
  fst (_choose_another_character fuel cs char s) = OutOfFuel.
Proof.
  intros Hrange Hcs Hall. revert s.
  induction fuel as [|fuel IH]; intros s; [reflexivity|].
  simpl. unfold bind.
  pose proof (random_choice_spec cs s Hrange) as Hch.
  destruct (random_choice cs s) as [[d| |] s1].
  - destruct Hch as [Hd _]. apply list_elem_of_lookup_2, Hall in Hd as ->.
    rewrite bool_decide_eq_true_2 by reflexivity. apply IH.
  - destruct Hch as (_ & Hnil & _). contradiction.
  - contradiction.
Qed.

(** X15. On a text of at most 50 characters the swap executor returns for
    every float probability: the correction of the probability cannot
    raise there, and the scan never does. *)
Theorem consecutive_swap_short_text (text : list ascii) (p : float)
    (s : rng) :
  length text <= 50 ->
  exists out s',
    consecutive_swap_random_chars text (PyFloat p) s = (Ok out, s') /\
    out ≡ₚ text.
Proof.
  intros Hlen. unfold consecutive_swap_random_chars, bind at 1, lift.
  assert (Hq : exists q, unbias_swap (PyFloat p) (length text) = Ok q).
  { unfold unbias_swap. simpl.
    destruct (length text =? 0)%nat; [eauto|].
    destruct (_ =? 0)%float; [eauto|].
    destruct (Nat.ltb_spec 50 (length text)); [lia|eauto]. }
  destruct Hq as [q ->]. rewrite zip_longest_adjacent. unfold bind.
  destruct (swap_loop_spec q text [] s) as (r & s' & out & -> & Hcat & Hd).
  exists (concat r), s'. split; [reflexivity|].
  simpl in Hcat. rewrite Hcat. apply das_Permutation, Hd.
Qed.

End MoreFacts.

Section MoreFactsOnSample.
Import NoiseUnbiasing Noise Spec Sample.

Lemma sample_pow_one (y : float) : libm_pow 1 y = 1%float.
Proof.
  simpl. unfold Sample.pow.
  destruct (y =? 1)%float; [reflexivity|].
  destruct (y =? 2)%float; [reflexivity|].
  destruct (y =? 0.5)%float; reflexivity.
Qed.

Lemma add_noise_zero_level_witness :
  fst (add_noise 3
         (Sample.augmenter 0 ["insert"; "swap"; "substitute"; "delete"]%string
            ["x"; "y"]%char 0)
         (Str (list_ascii_of_string "hello")))
  = Ok (Str (list_ascii_of_string "hello")).
Proof.
  apply (add_noise_zero_level 3
           (Sample.augmenter 0
              ["insert"; "swap"; "substitute"; "delete"]%string
              ["x"; "y"]%char 0)
           (list_ascii_of_string "hello")
           counter_random_in_unit counter_in_range sample_pow_one).
  - reflexivity.
  - discriminate.
  - intros a Ha. exact Ha.
  - discriminate.
Defined.

Lemma rejection_loop_without_other_symbol_witness :
  randbelow_in_range (RS := Sample.counter) /\
  fst (_choose_another_character (RS := Sample.counter) 100
         ["a"; "a"]%char "a"%char 0) = OutOfFuel.
Proof.
  split; [exact counter_in_range|].
  apply (rejection_loop_without_other_symbol (RS := Sample.counter) 100
           ["a"; "a"]%char "a"%char 0 counter_in_range).
  - discriminate.
  - intros c Hc. apply elem_of_cons in Hc as [->|Hc]; [reflexivity|].
    apply list_elem_of_singleton in Hc. exact Hc.
Defined.

Lemma consecutive_swap_short_text_witness :
  length (list_ascii_of_string "hello") <= 50 /\
  exists out s',
    consecutive_swap_random_chars (RS := Sample.counter)
      (list_ascii_of_string "hello") (PyFloat 0.5) 0 = (Ok out, s') /\
    out ≡ₚ list_ascii_of_string "hello".
Proof.
  split; [simpl; lia|].
  apply (consecutive_swap_short_text (RS := Sample.counter)
           (list_ascii_of_string "hello") 0.5 0).
  simpl. lia.
Defined.

End MoreFactsOnSample.

(** ** noise.py: substitute with a certain draw; noise_unbiasing.py: the
    clamp of the swap correction *)
Section CertainFacts.
Context {NR : NumericRuntime} {RS : RandomSource}.
Import NoiseUnbiasing Noise Spec.

Lemma substitute_changes_all (cs : list ascii) (p : float)
    (text : list ascii) (s0 : rng) :
  randbelow_in_range -> reaches_every_index (length cs) s0 ->
  at_least_two_symbols cs ->
  (forall s1, (fst (rng_random s1) <? p)%float = true) ->
  forall s, reachable (length cs) s0 s ->
    exists fuel0, forall fuel, fuel0 <= fuel ->
    exists pieces s',
      mapM (fun char =>
              bind (_random_success (PyFloat p))
                (fun b : bool =>
                   if b
                   then bind (_choose_another_character fuel cs char)
                             (fun c => ret [c])
                   else ret [char])) text s = (Ok pieces, s') /\
      Forall2 (fun char piece => exists c, piece = [c] /\ c ∈ cs /\ c <> char)
              text pieces.
Proof.
  intros Hrange Hfair Htwo Hyes.
  induction text as [|char text IH]; intros s Hs.
  - exists 0. intros fuel _. exists [], s. split; [reflexivity|constructor].
  - pose proof (random_success_float p s) as Hdraw. rewrite Hyes in Hdraw.
    destruct (choose_another_character_terminates cs char
                (snd (rng_random s)) Hrange
                (Hfair _ (reach_random _ _ _ Hs))
                (substituted_other cs char Htwo))
      as (f1 & c & s1 & Hrun).
    pose proof (choose_another_character_resampled _ _ _ _ _ _ Hrun)
      as Hres.
    destruct (IH s1 (resampled_reachable _ _ _ _ _ _ Hres
                       (reach_random _ _ _ Hs))) as (f2 & Hrest).
    exists (Nat.max f1 f2). intros fuel Hle.
    destruct (Hrest fuel ltac:(lia)) as (pieces & s' & Hmap & Hall).
    exists ([c] :: pieces), s'. split.
    + simpl. unfold bind at 1. unfold bind at 1. rewrite Hdraw.
      unfold bind at 1.
      rewrite (choose_another_character_mono f1 fuel cs char _ c s1)
        by (lia || exact Hrun).
      unfold ret at 1. unfold bind at 1. rewrite Hmap. reflexivity.
    + constructor; [|exact Hall]. exists c. split; [reflexivity|].
      eapply choose_another_character_spec, Hrun.
Qed.

(** X16. With a probability of 1 or more, an alphabet of at least two
    symbols and a generator that, from the states of the run, reaches every
    index of the alphabet, [substitute] changes every character of the text:
    at each position the output holds a symbol of the alphabet different
    from the original. *)
Theorem substitute_at_probability_one (cs text : list ascii) (p : float)
    (s : rng) :
  random_in_unit -> randbelow_in_range ->
  reaches_every_index (length cs) s ->
  at_least_two_symbols cs -> (1 <=? p)%float = true ->
  exists fuel0, forall fuel, fuel0 <= fuel ->
    exists out s',
      substitute_random_chars fuel cs text (PyFloat p) s = (Ok out, s') /\
      Forall2 (fun char c => c ∈ cs /\ c <> char) text out.
Proof.
  intros Hunit Hrange Hfair Htwo Hp.
  destruct (substitute_changes_all cs p text s Hrange Hfair Htwo
              (fun s1 => draw_succeeds_from_one p s1 Hunit Hp) s
              (reach_start _ _))
    as (fuel0 & Hrun).
  exists fuel0. intros fuel Hle.
  destruct (Hrun fuel Hle) as (pieces & s' & Hmap & Hall).
  exists (concat pieces), s'. split.
  - unfold substitute_random_chars, bind at 1. rewrite Hmap. reflexivity.
  - clear Hmap Hrun. induction Hall as [|char piece t ps (c & -> & Hc) _ IH];
      simpl; constructor; assumption.
Qed.

(** X17. Every float target above [MAX_SWAP_LEVEL] is corrected as
    [MAX_SWAP_LEVEL] itself, for every length; a complex target raises
    [TypeError]. *)
Theorem unbias_swap_clamps (p : float) (N : nat) :
  (MAX_SWAP_LEVEL <? p)%float = true ->
  unbias_swap (PyFloat p) N = unbias_swap (PyFloat MAX_SWAP_LEVEL) N /\
  unbias_swap PyComplex N = Raise TypeError.
Proof.
  intros Hp. split; [|reflexivity].
  unfold unbias_swap. simpl. rewrite Hp.
  replace (MAX_SWAP_LEVEL <? MAX_SWAP_LEVEL)%float with false
    by (vm_compute; reflexivity).
  reflexivity.
Qed.

End CertainFacts.

Section CertainFactsOnSample.
Import NoiseUnbiasing Noise Spec Sample.

Lemma substitute_at_probability_one_witness :
  random_in_unit (RS := Sample.counter) /\
  randbelow_in_range (RS := Sample.counter) /\
  reaches_every_index (RS := Sample.counter) (length ["x"; "y"]%char) 0 /\
  at_least_two_symbols ["x"; "y"]%char /\
  (1 <=? 1)%float = true /\
  exists fuel0, forall fuel, fuel0 <= fuel ->
    exists out s',
      substitute_random_chars (RS := Sample.counter) fuel ["x"; "y"]%char
        (list_ascii_of_string "hexlyo") (PyFloat 1) 0 = (Ok out, s') /\
      Forall2 (fun char c => c ∈ ["x"; "y"]%char /\ c <> char)
        (list_ascii_of_string "hexlyo") out.
Proof.
  split; [exact counter_random_in_unit|].
  split; [exact counter_in_range|].
  split; [exact (counter_reaches_every_index _ 0)|].
  split; [exact xy_two_symbols|].
  split; [reflexivity|].
  exact (substitute_at_probability_one (RS := Sample.counter)
           ["x"; "y"]%char (list_ascii_of_string "hexlyo") 1 0
           counter_random_in_unit counter_in_range
           (counter_reaches_every_index _ 0) xy_two_symbols eq_refl).
Defined.

Lemma unbias_swap_clamps_witness :
  (MAX_SWAP_LEVEL <? 0.9)%float = true /\
  unbias_swap (PyFloat 0.9) 7 = unbias_swap (PyFloat MAX_SWAP_LEVEL) 7 /\
  unbias_swap PyComplex 7 = Raise TypeError.
Proof.
  split; [reflexivity|].
  exact (unbias_swap_clamps 0.9 7 eq_refl).
Defined.

End CertainFactsOnSample.

(** ** noise_dataset.py and scripts/generate_figures.py *)
Section CallerFacts.
Context {NR : NumericRuntime} {RS : RandomSource}.
Import NoiseUnbiasing Noise NoiseDataset GenerateFigures Spec.

(** X18. [_add_noise_to_example] touches the named column only. When it
    returns, the column holds what [add_noise] made of its value, of the
    same kind and with as many tokens, the example has the same columns,
    and every other column is as it was. A missing column is a [KeyError]
    that leaves the augmenter untouched; and when [add_noise] fails nothing
    is stored. *)
Theorem add_noise_to_example_frame (fuel : nat) (example : gmap string text)
    (noise_augmenter : CharNoiseAugmenter) (feature_name : string) :
  match _add_noise_to_example fuel example noise_augmenter feature_name with
  | (Returned example', augmenter') =>
      exists value noised,
        example !! feature_name = Some value /\
        add_noise fuel noise_augmenter value = (Ok noised, augmenter') /\
        example' !! feature_name = Some noised /\
        same_shape value noised /\
        dom example' = dom example /\
        forall column, column <> feature_name ->
                       example' !! column = example !! column
  | (KeyError, augmenter') =>
      example !! feature_name = None /\ augmenter' = noise_augmenter
  | (Failed e, augmenter') =>
      exists value,
        example !! feature_name = Some value /\
        add_noise fuel noise_augmenter value = (Raise e, augmenter')
  | (Unfinished, augmenter') =>
      exists value,
        example !! feature_name = Some value /\
        add_noise fuel noise_augmenter value = (OutOfFuel, augmenter')
  end.
Proof.
  unfold _add_noise_to_example.
  destruct (example !! feature_name) as [value|] eqn:Hget; [|auto].
  destruct (add_noise fuel noise_augmenter value) as [[noised|e|] aug']
    eqn:Hrun; eauto.
  exists value, noised. split; [reflexivity|]. split; [exact Hrun|].
  split; [apply lookup_insert_eq|].
  split; [eapply add_noise_noised, Hrun|].
  split.
  - apply dom_insert_lookup_L. rewrite Hget. eauto.
  - intros column Hne. apply lookup_insert_ne. congruence.
Qed.

Lemma float_ltb_leb (x y : float) :
  (x <? y)%float = true -> (x <=? y)%float = true.
Proof.
  rewrite ltb_spec, leb_spec. unfold SFltb, SFleb.
  destruct (SFcompare (Prim2SF x) (Prim2SF y)) as [[| |]|]; congruence.
Qed.

Lemma max_level_bounds (actions : list string) :
  (0 <=? max_level actions)%float = true /\
  (max_level actions <=? 1)%float = true /\
  ("swap"%string ∈ actions ->
   (max_level actions <? MAX_SWAP_LEVEL)%float = true).
Proof.
  unfold max_level. case_bool_decide as Hswap.
  - repeat split; vm_compute; reflexivity.
  - repeat split; try (vm_compute; reflexivity). contradiction.
Qed.

(** X19. The benchmark never runs into the constructor's checks: for every
    noise level that is at least 0 and every list of available actions,
    [get_cer_from_textnoisr] either skips the level (it is above
    [max_level(actions)]) or builds its augmenter successfully. *)
Theorem benchmark_construction_succeeds (noise_level : float)
    (actions : list string) (entropy : Z) :
  (0 <=? noise_level)%float = true ->
  (forall a, a ∈ actions -> a ∈ _AVAILABLE_ACTIONS) ->
  get_cer_from_textnoisr_augmenter noise_level actions entropy = None \/
  exists self,
    get_cer_from_textnoisr_augmenter noise_level actions entropy
      = Some (Ok self).
Proof.
  intros H0 Havail. unfold get_cer_from_textnoisr_augmenter.
  destruct (max_level actions <? noise_level)%float eqn:Hguard; [auto|].
  right.
  destruct (max_level_bounds actions) as (Hm0 & Hm1 & Hswap).
  assert (Hle : (noise_level <=? max_level actions)%float = true)
    by (eapply float_leb_total; eauto).
  destruct (init_outcome noise_level actions ascii_letters (Some 43%Z)
              entropy) as [[Hrej _]|[_ ->]]; [|eauto].
  exfalso. destruct Hrej as [(a & Ha & Hbad)|[Hout|[Hgt Hin]]].
  - exact (Hbad (Havail a Ha)).
  - apply Hout. split; [exact H0|].
    eapply float_leb_trans; [exact Hle|exact Hm1].
  - unfold float_gt in Hgt.
    rewrite (float_leb_ltb_false noise_level MAX_SWAP_LEVEL) in Hgt;
      [discriminate|].
    apply float_ltb_leb.
    eapply float_leb_ltb_trans; [exact Hle|exact (Hswap Hin)].
Qed.

End CallerFacts.

Lemma benchmark_construction_succeeds_witness :
  (0 <=? 0.3)%float = true /\
  (GenerateFigures.get_cer_from_textnoisr_augmenter (RS := Sample.counter)
     0.3 ["swap"%string] 0%Z = None \/
   exists self,
     GenerateFigures.get_cer_from_textnoisr_augmenter (RS := Sample.counter)
       0.3 ["swap"%string] 0%Z = Some (Ok self)).
Proof.
  split; [reflexivity|].
  apply (benchmark_construction_succeeds (RS := Sample.counter)
           0.3 ["swap"%string] 0%Z eq_refl).
  intros a Ha. apply list_elem_of_singleton in Ha as ->.
  apply list_elem_of_further, list_elem_of_here.
Defined.

(** ** Equality of floats *)
Section FloatEquality.

(** Two floats compare equal only when they are the same float or two
    zeros. *)
Lemma SFcompare_Eq_cases (a b : spec_float) :
  SFcompare a b = Some Eq ->
  a = b \/ exists s1 s2, a = S754_zero s1 /\ b = S754_zero s2.
Proof.
  destruct a as [s1|s1| |s1 m1 e1], b as [s2|s2| |s2 m2 e2]; simpl;
    try discriminate; eauto;
    try (destruct s1; discriminate); try (destruct s2; discriminate).
  - destruct s1, s2; try discriminate; auto.
  - destruct s1, s2; try discriminate;
      destruct (e1 ?= e2)%Z eqn:He; try discriminate;
      apply Z.compare_eq in He as ->;
      rewrite Pos.compare_cont_spec; simpl;
      destruct (m1 ?= m2)%positive eqn:Hm; try discriminate;
      apply Pos.compare_eq in Hm as ->; auto.
Qed.

Lemma float_eqb_zero_inv (z : float) :
  (z =? 0)%float = true -> exists s, Prim2SF z = S754_zero s.
Proof.
  rewrite FloatAxioms.eqb_spec.
  replace (Prim2SF 0) with (S754_zero false) by (vm_compute; reflexivity).
  destruct (Prim2SF z) as [s|s| |s m e]; simpl; try discriminate; eauto.
  - destruct s; discriminate.
  - destruct s; discriminate.
Qed.

Lemma float_zero_eqb (z : float) (s : bool) :
  Prim2SF z = S754_zero s -> (z =? 0)%float = true.
Proof.
  intros Hz. rewrite FloatAxioms.eqb_spec, Hz.
  replace (Prim2SF 0) with (S754_zero false) by (vm_compute; reflexivity).
  reflexivity.
Qed.

Lemma float_eqb_cases (a b : float) :
  (a =? b)%float = true ->
  a = b \/ ((a =? 0)%float = true /\ (b =? 0)%float = true).
Proof.
  rewrite FloatAxioms.eqb_spec. unfold SFeqb.
  destruct (SFcompare (Prim2SF a) (Prim2SF b)) as [[| |]|] eqn:Hc;
    try discriminate.
  intros _. apply SFcompare_Eq_cases in Hc as [Heq|(s1 & s2 & Ha & Hb)].
  - left. rewrite <- (SF2Prim_Prim2SF a), <- (SF2Prim_Prim2SF b).
    rewrite Heq. reflexivity.
  - right. eauto using float_zero_eqb.
Qed.

Lemma float_zeros_eqb (a b : float) :
  (a =? 0)%float = true -> (b =? 0)%float = true -> (a =? b)%float = true.
Proof.
  intros Ha Hb.
  apply float_eqb_zero_inv in Ha as [s1 Ha].
  apply float_eqb_zero_inv in Hb as [s2 Hb].
  rewrite FloatAxioms.eqb_spec, Ha, Hb. reflexivity.
Qed.

(** The sign of a zero does not show in a comparison. *)
Lemma float_ltb_zero (z u : float) :
  (z =? 0)%float = true ->
  (u <? z)%float = (u <? 0)%float /\ (z <? u)%float = (0 <? u)%float.
Proof.
  intros Hz. apply float_eqb_zero_inv in Hz as [s Hz].
  rewrite !FloatAxioms.ltb_spec, Hz.
  replace (Prim2SF 0) with (S754_zero false) by (vm_compute; reflexivity).
  destruct (Prim2SF u) as [su|su| |su mu eu]; split; reflexivity.
Qed.

End FloatEquality.

(** ** The caches of noise_unbiasing.py do not show in the results *)
Section CacheFacts.
Context {NR : NumericRuntime} {RS : RandomSource}.
Import NoiseUnbiasing Noise Cached Spec.

Lemma same_float_sym (a b : float) : same_float a b -> same_float b a.
Proof.
  intros [->|H]; [left; reflexivity|].
  destruct (float_eqb_cases a b H) as [->|[Ha Hb]]; [right; exact H|].
  right. apply float_zeros_eqb; assumption.
Qed.

(** A comparison does not tell two equal floats apart. *)
Lemma same_float_ltb (q q' u : float) :
  same_float q q' -> (u <? q)%float = (u <? q')%float.
Proof.
  intros [->|H]; [reflexivity|].
  destruct (float_eqb_cases q q' H) as [->|[Hq Hq']]; [reflexivity|].
  rewrite (proj1 (float_ltb_zero q u Hq)), (proj1 (float_ltb_zero q' u Hq')).
  reflexivity.
Qed.

Lemma cache_find_some (k : float * nat) (c : list entry) (e : entry)
    (rest : list entry) :
  cache_find k c = Some (e, rest) ->
  key_eqb k e.1 = true /\ e ∈ c /\ forall x, x ∈ rest -> x ∈ c.
Proof.
  revert e rest. induction c as [|e0 c IH]; intros e rest; simpl;
    [discriminate|].
  destruct (key_eqb k e0.1) eqn:Hk.
  - intros [= <- <-]. split; [exact Hk|].
    split; [apply list_elem_of_here|].
    intros x Hx. apply list_elem_of_further, Hx.
  - destruct (cache_find k c) as [[e' rest']|]; [|discriminate].
    intros [= <- <-]. destruct (IH e' rest' eq_refl) as (Hk' & He & Hrest).
    split; [exact Hk'|]. split; [apply list_elem_of_further, He|].
    intros x Hx. apply elem_of_cons in Hx as [->|Hx];
      [apply list_elem_of_here|apply list_elem_of_further, Hrest, Hx].
Qed.

Lemma key_eqb_true (k k' : float * nat) :
  key_eqb k k' = true -> (k.1 =? k'.1)%float = true /\ k.2 = k'.2.
Proof. unfold key_eqb. rewrite andb_true_iff, Nat.eqb_eq. tauto. Qed.

(** The solver is never called on a zero, so the key a call finds in its
    cache is its own argument, and a hit returns what a miss computes. *)
Lemma compute_noise_level_cached_exact (sc : list entry) (cer : float)
    (N : nat) :
  (forall f n v, ((f, n), v) ∈ sc ->
     v = __compute_noise_level_from_expected_cer f n) ->
  (cer =? 0)%float = false ->
  exists sc',
    compute_noise_level_cached sc cer N =
      (__compute_noise_level_from_expected_cer cer N, sc') /\
    (forall f n v, ((f, n), v) ∈ sc' ->
       v = __compute_noise_level_from_expected_cer f n).
Proof.
  intros Hsc Hnz. unfold compute_noise_level_cached.
  destruct (cache_find (cer, N) sc) as [[e rest]|] eqn:Hfind.
  - apply cache_find_some in Hfind as (Hk & He & _).
    apply key_eqb_true in Hk as [Hf Hn].
    destruct e as [[f n] v]. simpl in *. subst n.
    exists sc. split; [|exact Hsc].
    rewrite (Hsc f N v He).
    destruct (float_eqb_cases cer f Hf) as [->|[Hz _]];
      [reflexivity|congruence].
  - eexists. split; [reflexivity|]. intros f n v Hin.
    apply elem_of_cons in Hin as [Heq|Hin]; [|eauto].
    inversion Heq. reflexivity.
Qed.

(** With the decorated solver the body returns what it returns with the
    plain one. *)
Lemma unbias_swap_body_exact (sc : list entry) (p : pynum) (N : nat) :
  (forall f n v, ((f, n), v) ∈ sc ->
     v = __compute_noise_level_from_expected_cer f n) ->
  exists sc',
    unbias_swap_body sc p N = (unbias_swap p N, sc') /\
    (forall f n v, ((f, n), v) ∈ sc' ->
       v = __compute_noise_level_from_expected_cer f n).
Proof.
  intros Hsc. unfold unbias_swap_body, unbias_swap.
  destruct (py_min p MAX_SWAP_LEVEL) as [q|e|]; simpl; [|eauto|eauto].
  destruct (N =? 0)%nat; [eauto|].
  destruct (q =? 0)%float eqn:Hq; [eauto|].
  destruct (50 <? N)%nat; [eauto|].
  destruct (compute_noise_level_cached_exact sc q N Hsc Hq)
    as (sc' & -> & Hsc').
  eauto.
Qed.

(** The correction of a zero, of either sign, is a zero. *)
Lemma unbias_swap_of_zero (z : float) (N : nat) :
  (z =? 0)%float = true ->
  exists v, unbias_swap (PyFloat z) N = Ok v /\ (v =? 0)%float = true.
Proof.
  intros Hz. unfold unbias_swap. simpl.
  rewrite (proj1 (float_ltb_zero z MAX_SWAP_LEVEL Hz)).
  replace (MAX_SWAP_LEVEL <? 0)%float with false by (vm_compute; reflexivity).
  destruct (N =? 0)%nat; [eauto|]. rewrite Hz.
  exists 0%float. split; reflexivity.
Qed.

(** Two targets that are equal are corrected alike. *)
Lemma unbias_swap_equal_keys (f g : float) (N : nat) :
  (f =? g)%float = true ->
  same_outcome (unbias_swap (PyFloat f) N) (unbias_swap (PyFloat g) N).
Proof.
  intros H. destruct (float_eqb_cases f g H) as [->|[Hf Hg]].
  - destruct (unbias_swap (PyFloat g) N); simpl; auto. left. reflexivity.
  - destruct (unbias_swap_of_zero f N Hf) as (v & -> & Hv).
    destruct (unbias_swap_of_zero g N Hg) as (v' & -> & Hv').
    simpl. right. apply float_zeros_eqb; assumption.
Qed.

Lemma no_cache_holds_results : caches_hold_results no_cache.
Proof. split; intros f n v Hin; apply elem_of_nil in Hin; contradiction. Qed.

(** The decorated [unbias_swap] returns what the function under the
    decorator returns, up to the sign of a zero, whatever the earlier calls
    have left in the caches. *)
Lemma unbias_swap_cached_sound (c : caches) (p : pynum) (N : nat) :
  caches_hold_results c ->
  exists r c',
    unbias_swap_cached c p N = (r, c') /\
    same_outcome (unbias_swap p N) r /\
    caches_hold_results c'.
Proof.
  intros [Hsw Hso]. unfold unbias_swap_cached. cbv zeta.
  destruct p as [f|].
  - destruct (cache_find (f, N) (swap_cache c)) as [[e rest]|] eqn:Hfind.
    + apply cache_find_some in Hfind as (Hk & He & Hrest).
      apply key_eqb_true in Hk as [Hf Hn].
      destruct e as [[g n] v]. simpl in Hf, Hn. subst n.
      eexists _, _. split; [reflexivity|]. split.
      * pose proof (unbias_swap_equal_keys f g N Hf) as Hsame.
        rewrite (Hsw g N v He) in Hsame. exact Hsame.
      * split; [|exact Hso]. intros f0 n0 v0 Hin. apply Hsw.
        apply elem_of_cons in Hin as [->|Hin]; [exact He|apply Hrest, Hin].
    + destruct (unbias_swap_body_exact (solver_cache c) (PyFloat f) N Hso)
        as (sc' & -> & Hsc').
      destruct (unbias_swap (PyFloat f) N) as [v|e|] eqn:Hrun;
        eexists _, _; (split; [reflexivity|]); split;
        try (left; reflexivity); try reflexivity; try exact I;
        (split; [|exact Hsc']); [|exact Hsw|exact Hsw].
      intros f0 n0 v0 Hin. apply subseteq_take in Hin.
      apply elem_of_cons in Hin as [Heq|Hin]; [|eauto].
      inversion Heq. subst. exact Hrun.
  - destruct (unbias_swap_body_exact (solver_cache c) PyComplex N Hso)
      as (sc' & -> & Hsc').
    destruct (unbias_swap PyComplex N) as [v|e|] eqn:Hrun;
      [discriminate Hrun| |];
      eexists _, _; (split; [reflexivity|]); split;
      try reflexivity; try exact I; (split; [exact Hsw|exact Hsc']).
Qed.

(** The first call in a process returns exactly what the function under the
    decorator returns. *)
Lemma unbias_swap_cached_first_call (p : pynum) (N : nat) :
  fst (unbias_swap_cached no_cache p N) = unbias_swap p N.
Proof.
  unfold unbias_swap_cached. cbv zeta.
  destruct (unbias_swap_body_exact [] p N) as (sc' & Hbody & _).
  { intros f n v Hin. apply elem_of_nil in Hin. contradiction. }
  destruct p as [f|]; [|reflexivity].
  change (cache_find (f, N) (swap_cache no_cache)) with (@None (entry * list entry)).
  cbv iota. change (solver_cache no_cache) with (@nil entry).
  rewrite Hbody. destruct (unbias_swap _ N); reflexivity.
Qed.

Lemma other_calls_hold_results (calls : list (pynum * nat)) (c : caches) :
  caches_hold_results c -> caches_hold_results (other_calls c calls).
Proof.
  revert c. induction calls as [|[p N] calls IH]; intros c Hc; simpl;
    [exact Hc|].
  destruct (unbias_swap_cached_sound c p N Hc) as (r & c' & Heq & _ & Hc').
  rewrite Heq. apply IH, Hc'.
Qed.

(** *** The swap loop reads its probability through comparisons only *)

Lemma swap_loop_same (q q' : float) :
  same_float q q' ->
  forall pairs result was_swapped s,
    swap_loop (PyFloat q) pairs result was_swapped s =
    swap_loop (PyFloat q') pairs result was_swapped s.
Proof.
  intros H pairs.
  induction pairs as [|[cur nxt] rest IH]; intros result ws s; simpl;
    [reflexivity|].
  destruct ws; [apply IH|]. unfold bind.
  rewrite !random_success_float, (same_float_ltb q q' _ H).
  destruct (_ <? _)%float; apply IH.
Qed.

Lemma swap_pass_same (q q' : float) (text : list ascii) (s : rng) :
  same_float q q' -> swap_pass text q s = swap_pass text q' s.
Proof.
  intros H. unfold swap_pass, bind. rewrite (swap_loop_same q q' H).
  reflexivity.
Qed.

(** *** [add_noise] against the caches does what [add_noise] does *)

Lemma simulates_retC {A} (a : A) : simulates (retC a) (ret a).
Proof. intros s c Hc. exists (Ok a), s, c. auto. Qed.

Lemma simulates_liftR {A} (r : res A) : simulates (liftR r) (lift r).
Proof. intros s c Hc. exists r, s, c. auto. Qed.

Lemma simulates_liftC {A} (m : M A) : simulates (liftC m) m.
Proof.
  intros s c Hc. unfold liftC. simpl.
  destruct (m s) as [r s']. exists r, s', c. auto.
Qed.

Lemma simulates_bindC {A B} (mc : MC A) (m : M A) (kc : A -> MC B)
    (k : A -> M B) :
  simulates mc m -> (forall a, simulates (kc a) (k a)) ->
  simulates (bindC mc kc) (bind m k).
Proof.
  intros Hm Hk s c Hc.
  destruct (Hm s c Hc) as (r & s1 & c1 & Hmc & Hms & Hc1).
  unfold bindC, bind. rewrite Hmc, Hms. destruct r as [a|e|].
  - apply Hk, Hc1.
  - eauto 10.
  - eauto 10.
Qed.

Lemma simulates_mapMC {A B} (fc : A -> MC B) (f : A -> M B) (l : list A) :
  (forall x, simulates (fc x) (f x)) -> simulates (mapMC fc l) (mapM f l).
Proof.
  intros Hf. induction l as [|x l IH]; simpl.
  - apply simulates_retC.
  - apply simulates_bindC; [apply Hf|]. intros y.
    apply simulates_bindC; [exact IH|]. intros ys. apply simulates_retC.
Qed.

Lemma simulates_swap (text : list ascii) (p : pynum) :
  simulates (consecutive_swap_random_chars_cached text p)
            (consecutive_swap_random_chars text p).
Proof.
  intros s c Hc. unfold consecutive_swap_random_chars_cached. simpl.
  destruct (unbias_swap_cached_sound c p (length text) Hc)
    as (r' & c' & -> & Hsame & Hc').
  unfold consecutive_swap_random_chars, bind at 1, lift.
  destruct (unbias_swap p (length text)) as [q|e|], r' as [q'|e'|];
    simpl in Hsame; try contradiction.
  - unfold liftC. simpl.
    change (bind (swap_loop (PyFloat q)
                    (zip_longest [] (chars text) (chars (drop 1 text)))
                    [] false)
                 (fun result => ret (concat result)) s)
      with (swap_pass text q s).
    rewrite (swap_pass_same q q' text s Hsame).
    destruct (swap_pass text q' s) as [r s']. eauto 10.
  - subst e'. eauto 10.
  - eauto 10.
Qed.

Lemma simulates_action (fuel : nat) (self : CharNoiseAugmenter)
    (action : string) :
  match action_function_cached fuel self action,
        action_function fuel self action with
  | Ok fc, Ok f => forall t p, simulates (fc t p) (f t p)
  | Raise e, Raise e' => e = e'
  | _, _ => False
  end.
Proof.
  unfold action_function_cached, action_function.
  repeat match goal with
         | |- context [String.eqb ?a ?b] => destruct (String.eqb a b)
         end;
    try reflexivity; intros t p;
    first [apply simulates_liftC | apply simulates_swap].
Qed.

Lemma simulates_run_actions (fuel : nat) (self : CharNoiseAugmenter)
    (todo : list string) (p : pynum) (t : text) :
  simulates (run_actions_cached fuel self todo p t)
            (run_actions fuel self todo p t).
Proof.
  revert t. induction todo as [|action rest IH]; intros t.
  - apply simulates_retC.
  - pose proof (simulates_action fuel self action) as Hact.
    intros s c Hc. simpl. unfold bindC at 1, liftR, bind at 1, lift.
    destruct (action_function_cached fuel self action) as [fc|e|],
             (action_function fuel self action) as [f|e'|];
      try contradiction.
    + refine (simulates_bindC _ _ _ _ _ (fun t' => IH t') s c Hc).
      destruct t as [str|ws].
      * apply simulates_bindC; [apply Hact|]. intros s'.
        apply simulates_retC.
      * apply simulates_bindC; [apply simulates_mapMC; intros w; apply Hact|].
        intros ws'. apply simulates_retC.
    + subst e'. eauto 10.
Qed.

Lemma simulates_add_noise_body (fuel : nat) (self : CharNoiseAugmenter)
    (t : text) :
  simulates (add_noise_body_cached fuel self t) (add_noise_body fuel self t).
Proof.
  unfold add_noise_body_cached, add_noise_body.
  apply simulates_bindC; [apply simulates_liftR|]. intros p.
  apply simulates_bindC; [apply simulates_liftR|]. intros p_effective.
  apply simulates_run_actions.
Qed.

(** One call: the outcome and the augmenter it leaves are those of
    [add_noise], whatever the caches hold. *)
Lemma add_noise_cached_sound (fuel : nat) (self : CharNoiseAugmenter)
    (t : text) (c : caches) :
  caches_hold_results c ->
  exists r self' c',
    add_noise_cached fuel self t c = ((r, self'), c') /\
    add_noise fuel self t = (r, self') /\
    caches_hold_results c'.
Proof.
  intros Hc. unfold add_noise_cached, add_noise.
  destruct (simulates_add_noise_body fuel self t (random self) c Hc)
    as (r & s' & c' & -> & -> & Hc').
  eauto 10.
Qed.

Lemma add_noise_calls_cached_sound (fuel : nat)
    (others : nat -> list (pynum * nat)) (inputs : list text) :
  forall (self : CharNoiseAugmenter) (c : caches) (i : nat),
    caches_hold_results c ->
    fst (add_noise_calls_cached fuel self c others i inputs) =
      add_noise_calls fuel self inputs.
Proof.
  induction inputs as [|t rest IH]; intros self c i Hc; simpl;
    [reflexivity|].
  destruct (add_noise_cached_sound fuel self t (other_calls c (others i))
              (other_calls_hold_results _ _ Hc))
    as (r & self' & c1 & -> & -> & Hc1).
  specialize (IH self' c1 (S i) Hc1).
  destruct (add_noise_calls_cached fuel self' c1 others (S i) rest)
    as [[rs self''] c2].
  simpl in IH. rewrite <- IH. reflexivity.
Qed.

(** C5 (amended). Whatever earlier calls have left in the cache, the swap
    correction with [N = 0] returns [min(p, MAX_SWAP_LEVEL)] up to the sign
    of a zero, and with [p = 0] it returns a zero for every [N]. The first
    call of a process returns exactly [min(p, MAX_SWAP_LEVEL)], and exactly
    [0.0]. *)
Theorem unbias_swap_edge_cases (earlier : list (pynum * nat)) (p : float)
    (N : nat) :
  (exists v c',
     unbias_swap_cached (other_calls no_cache earlier) (PyFloat p) 0
       = (Ok v, c') /\
     same_float v (if (MAX_SWAP_LEVEL <? p)%float
                   then MAX_SWAP_LEVEL else p)) /\
  (exists v c',
     unbias_swap_cached (other_calls no_cache earlier) (PyFloat 0) N
       = (Ok v, c') /\
     (v =? 0)%float = true) /\
  fst (unbias_swap_cached no_cache (PyFloat p) 0) =
    Ok (if (MAX_SWAP_LEVEL <? p)%float then MAX_SWAP_LEVEL else p) /\
  fst (unbias_swap_cached no_cache (PyFloat 0) N) = Ok 0%float.
Proof.
  pose proof (other_calls_hold_results earlier no_cache
                no_cache_holds_results) as Hc.
  split; [|split; [|split]].
  - destruct (unbias_swap_cached_sound _ (PyFloat p) 0 Hc)
      as (r & c' & -> & Hsame & _).
    change (unbias_swap (PyFloat p) 0)
      with (Ok (if (MAX_SWAP_LEVEL <? p)%float
                then MAX_SWAP_LEVEL else p)) in Hsame.
    destruct r as [v|e|]; simpl in Hsame; try contradiction.
    exists v, c'. split; [reflexivity|apply same_float_sym, Hsame].
  - destruct (unbias_swap_cached_sound _ (PyFloat 0) N Hc)
      as (r & c' & -> & Hsame & _).
    rewrite unbias_swap_zero_target in Hsame.
    destruct r as [v|e|]; simpl in Hsame; try contradiction.
    exists v, c'. split; [reflexivity|].
    apply same_float_sym in Hsame as [->|Hv]; [reflexivity|exact Hv].
  - rewrite unbias_swap_cached_first_call. reflexivity.
  - rewrite unbias_swap_cached_first_call. apply unbias_swap_zero_target.
Qed.

(** C9. Two augmenters built with the same seed and the same configuration
    and given the same sequence of inputs return the same sequence of
    outcomes and end in the same state. Nothing else the code reads shows in
    them: not the operating system's entropy at either construction, not
    what earlier calls of the process have left in the caches of
    [noise_unbiasing.py] when either sequence starts, and not the calls other
    users of [unbias_swap] make between two calls of either sequence. The
    outcomes are those of [add_noise] run without caches. *)
Theorem add_noise_calls_deterministic (level : float) (acts : list string)
    (cs : list ascii) (seed : Z) (entropy1 entropy2 : Z) (fuel : nat)
    (earlier1 earlier2 : list (pynum * nat))
    (others1 others2 : nat -> list (pynum * nat)) (inputs : list text) :
  match __init__ level acts cs (Some seed) entropy1,
        __init__ level acts cs (Some seed) entropy2 with
  | Ok self1, Ok self2 =>
      fst (add_noise_calls_cached fuel self1
             (other_calls no_cache earlier1) others1 0 inputs) =
      fst (add_noise_calls_cached fuel self2
             (other_calls no_cache earlier2) others2 0 inputs) /\
      fst (add_noise_calls_cached fuel self1
             (other_calls no_cache earlier1) others1 0 inputs) =
      add_noise_calls fuel self1 inputs
  | Raise e1, Raise e2 => e1 = e2
  | _, _ => False
  end.
Proof.
  assert (Hsame : __init__ level acts cs (Some seed) entropy1 =
                  __init__ level acts cs (Some seed) entropy2)
    by reflexivity.
  rewrite <- Hsame.
  destruct (init_outcome level acts cs (Some seed) entropy1)
    as [[_ ->]|[_ ->]]; [reflexivity|].
  rewrite !add_noise_calls_cached_sound
    by apply other_calls_hold_results, no_cache_holds_results.
  split; reflexivity.
Qed.

End CacheFacts.
